(** * go-exports: the exported-symbol model, its comparator and its extractor

    A shallow embedding of [check_symbol.go].  Go's [map[string]*Symbol] is a
    [gmap string (option Symbol)] ([None] is the nil pointer), a run-time panic
    is the [Panic] outcome of the [result] type, and the unspecified iteration
    order of a Go [range] over a map is a parameter of every function that
    ranges over one. *)

From Stdlib Require Import ZArith.
From stdpp Require Import gmap strings list fin_maps pretty.

Local Open Scope string_scope.
Local Open Scope list_scope.

(* Silence the note about induction schemes of nested types. *)
#[local] Set Warnings "-register-all".

(** ** Outcomes of a Go call *)

(** The run-time panics the program can raise. *)
Inductive PanicKind :=
  | NilDereference      (* invalid memory address or nil pointer dereference *)
  | TypeAssertion       (* interface conversion: failed [x.(T)] *)
  | UnknownType         (* [panic("unknown type")] in [formatType] *)
  | IndexOutOfRange.    (* [s[0]] on an empty slice *)

Inductive result (A : Type) :=
  | Ok (a : A)
  | Panic (p : PanicKind).
Arguments Ok {A} a.
Arguments Panic {A} p.

#[global] Instance result_ret : MRet result := fun A a => Ok a.
#[global] Instance result_bind : MBind result := fun A B f r =>
  match r with
  | Ok a => f a
  | Panic p => Panic p
  end.

(** ** Iteration over a Go map *)

(** [for k, v := range m] visits every entry of [m] once, in an order the
    language leaves unspecified.  A [MapRange] is one possible behaviour of
    the runtime: some enumeration of the entries of each map. *)
Record MapRange := {
  range : forall V : Type, gmap string V -> list (string * V);
  range_perm : forall V (m : gmap string V), Permutation (range V m) (map_to_list m)
}.
Arguments range _ {V} _.

(** ** The symbol model *)

Inductive Symbol := mkSymbol {
  Label : string;
  SymbolType : string;
  UnderlyingType : string;
  ReceiverType : string;
  FileName : string;
  Pos : Z;
  Members : list Symbol;
  FuncSpecPtr : option FuncSpec   (* the field [FuncSpec *FuncSpec] *)
}
with FuncSpec := mkFuncSpec {
  Params : list Symbol;
  Returns : list Symbol
}.

Definition SymbolList := list Symbol.

(** [fmt.Sprintf("%s.%s", c.ReceiverType, c.Label)] *)
Definition Ident (c : Symbol) : string :=
  ReceiverType c +:+ "." +:+ Label c.

(** The method [Symbol.String], used by every [%s] of a symbol. *)
Definition String (c : Symbol) : string :=
  let res := Ident c in
  if negb (String.eqb (FileName c) "") && negb (Z.eqb (Pos c) 0)
  then res +:+ " (" +:+ FileName c +:+ ":offset " +:+ pretty (Pos c) +:+ ")"
  else res.

(** ** The comparator *)

Section Compare.
Variable rt : MapRange.

(** The first loop of [compareSymbolList]: the lookup from Ident to
    the address of a copy of the source symbol; later entries overwrite
    earlier ones with the same Ident. *)
Definition buildAgg (source : SymbolList) : gmap string (option Symbol) :=
  fold_left (fun agg symbol => <[Ident symbol := Some symbol]> agg) source empty.

Section Loops.
(* The comparison of a matched pair, [compareSymbol] once the knot is tied. *)
Variable cmp : Symbol -> Symbol -> bool -> result (list string).

(** The second loop, over [target].  [ok] of the lookup only says that
    the key is present: an entry already set to nil is found again, and
    [*origSymbol] then dereferences nil. *)
Fixpoint targetLoop (cmpLabel : bool) (target : SymbolList)
    (agg : gmap string (option Symbol)) (diffs : list string) {struct target}
    : result (gmap string (option Symbol) * list string) :=
  match target with
  | [] => Ok (agg, diffs)
  | symbol :: rest =>
      match agg !! Ident symbol with
      | Some origSymbol =>
          let agg := <[Ident symbol := None]> agg in
          match origSymbol with
          | None => Panic NilDereference
          | Some orig =>
              ds ← cmp orig symbol cmpLabel;
              targetLoop cmpLabel rest agg (diffs ++ ds)
          end
      | None =>
          targetLoop cmpLabel rest agg
            (diffs ++ ["extra symbol found: " +:+ String symbol])
      end
  end.

(** The third loop, a [range] over the lookup itself. *)
Definition missingLoop (entries : list (string * option Symbol))
    (diffs : list string) : list string :=
  fold_left (fun diffs kv =>
               match kv.2 with
               | Some symbol => diffs ++ ["missing symbol: " +:+ String symbol]
               | None => diffs
               end) entries diffs.

Definition compareSymbolListWith (source target : SymbolList) (cmpLabel : bool)
    : result (list string) :=
  let agg := buildAgg source in
  '(agg, diffs) ← targetLoop cmpLabel target agg [];
  Ok (missingLoop (range rt agg) diffs).

Definition compareFuncSpecWith (a b : FuncSpec) : result (list string) :=
  ps ← compareSymbolListWith (Params a) (Params b) false;
  rs ← compareSymbolListWith (Returns a) (Returns b) false;
  Ok ((String.append "func param mismatch: " <$> ps)
        ++ (String.append "func result mismatch: " <$> rs)).
End Loops.

(** [compareSymbol] and [compareSymbolList] call each other; every
    recursive call descends into the target symbol [b]. *)
Fixpoint compareSymbol (a b : Symbol) (cmpLabel : bool) {struct b}
    : result (list string) :=
  let diffs := [] in
  let diffs :=
    if negb (String.eqb (SymbolType a) (SymbolType b))
    then diffs ++ [String a +:+ " and " +:+ String b
                     +:+ " have different symbol types: "
                     +:+ SymbolType a +:+ " and " +:+ SymbolType b]
    else diffs in
  let diffs :=
    if cmpLabel && negb (String.eqb (Label a) (Label b))
    then diffs ++ [String a +:+ " and " +:+ String b
                     +:+ " have different labels: "
                     +:+ Label a +:+ " and " +:+ Label b]
    else diffs in
  let diffs :=
    if String.eqb (SymbolType a) "type"
       && negb (String.eqb (UnderlyingType a) (UnderlyingType b))
    then diffs ++ ["type alias " +:+ String a +:+ " and " +:+ String b
                     +:+ " have different underlying types: "
                     +:+ UnderlyingType a +:+ " and " +:+ UnderlyingType b]
    else diffs in
  let diffs :=
    if String.eqb (SymbolType a) "method"
       && negb (String.eqb (ReceiverType a) (ReceiverType b))
    then diffs ++ ["method " +:+ String a +:+ " and " +:+ String b
                     +:+ " have different receiver types: "
                     +:+ ReceiverType a +:+ " and " +:+ ReceiverType b]
    else diffs in
  ms ← compareSymbolListWith compareSymbol (Members a) (Members b) true;
  let diffs := diffs ++ ms in
  if String.eqb (SymbolType a) "func"
  then
    match FuncSpecPtr a, FuncSpecPtr b with
    | Some fa, Some fb =>
        fs ← compareFuncSpecWith compareSymbol fa fb;
        Ok (diffs ++ fs)
    | _, _ => Panic NilDereference
    end
  else Ok diffs.

Definition compareSymbolList : SymbolList -> SymbolList -> bool -> result (list string) :=
  compareSymbolListWith compareSymbol.

Definition compareFuncSpec : FuncSpec -> FuncSpec -> result (list string) :=
  compareFuncSpecWith compareSymbol.
End Compare.

(** ** The syntax trees of [go/ast] that the extractor inspects *)

Module ast.
(** [*ast.Ident] *)
Record Ident := mkIdent {
  NamePos : Z;
  Name : string
}.

(** [ast.Expr], with the node types a type expression can be; [Field] is
    one entry of an [*ast.FieldList] and [FuncType] the node [*ast.FuncType].
    A nil [*ast.FieldList] is [None]. *)
Inductive Expr :=
  | IdentExpr (id : Ident)
  | InterfaceType (Methods : list Field)
  | StructType (Fields : list Field)
  | ArrayType (Len : option Expr) (Elt : Expr)
  | FuncTypeExpr (ft : FuncType)
  | MapType (Key Value : Expr)
  | ChanType (Value : Expr)
  | StarExpr (X : Expr)
  | SelectorExpr (X : Expr) (Sel : Ident)
  | Ellipsis (Elt : option Expr)
  | ParenExpr (X : Expr)
  | BadExpr
with Field :=
  | mkField (Names : list Ident) (Typ : Expr)
with FuncType :=
  | mkFuncType (Func : Z) (Params Results : option (list Field)).

Definition Names (f : Field) : list Ident := let 'mkField names _ := f in names.
(** The field [Type] of an [*ast.Field]. *)
Definition Typ (f : Field) : Expr := let 'mkField _ typ := f in typ.
Definition Func (x : FuncType) : Z := let 'mkFuncType pos _ _ := x in pos.
Definition Params (x : FuncType) : option (list Field) :=
  let 'mkFuncType _ params _ := x in params.
Definition Results (x : FuncType) : option (list Field) :=
  let 'mkFuncType _ _ results := x in results.

(** [*ast.TypeSpec]; [Name] is nil in the specs [funcSpec] makes up. *)
Record TypeSpec := mkTypeSpec {
  SpecName : option Ident;   (* the field [Name] *)
  SpecType : Expr            (* the field [Type] *)
}.

Inductive Spec :=
  | ImportSpec
  | ValueSpec (Names : list Ident)
  | TypeSpecOf (spec : TypeSpec).

(** [*ast.FuncDecl]; [Recv] is nil for a function that is not a method. *)
Record FuncDecl := mkFuncDecl {
  Recv : option (list Field);
  DeclName : Ident;          (* the field [Name] *)
  DeclType : FuncType        (* the field [Type] *)
}.

(** [decl.Pos()] is [decl.Type.Pos()], the position of the keyword. *)
Definition FuncDecl_Pos (decl : FuncDecl) : Z := Func (DeclType decl).

Inductive Decl :=
  | BadDecl
  | GenDecl (Specs : list Spec)
  | FuncDeclOf (decl : FuncDecl).

(** [*ast.File]: [Package] is what [file.Pos()] returns. *)
Record File := mkFile {
  Package : Z;
  Decls : list Decl
}.
End ast.

(** ** The extractor *)

(** [token.Pos] is an [int]; its subtraction wraps around at 64 bits. *)
Definition wrap64 (z : Z) : Z := ((z + 2 ^ 63) mod 2 ^ 64 - 2 ^ 63)%Z.
Definition subPos (a b : Z) : Z := wrap64 (a - b).

Definition setPos (res : Symbol) (pos : Z) : Symbol :=
  {| Label := Label res; SymbolType := SymbolType res;
     UnderlyingType := UnderlyingType res; ReceiverType := ReceiverType res;
     FileName := FileName res; Pos := pos;
     Members := Members res; FuncSpecPtr := FuncSpecPtr res |}.

Definition setFileName (res : Symbol) (fileName : string) : Symbol :=
  {| Label := Label res; SymbolType := SymbolType res;
     UnderlyingType := UnderlyingType res; ReceiverType := ReceiverType res;
     FileName := fileName; Pos := Pos res;
     Members := Members res; FuncSpecPtr := FuncSpecPtr res |}.

Section Append.
Context {A B : Type}.
Variable body : A -> result B.

(** [for _, x := range l { acc = append(acc, body(x)) }], left to right;
    the first panic ends the loop. *)
Fixpoint appendEach (l : list A) (acc : list B) : result (list B) :=
  match l with
  | [] => Ok acc
  | x :: rest => y ← body x; appendEach rest (acc ++ [y])
  end.

(** The same loop when an iteration appends any number of elements. *)
Variable bodies : A -> result (list B).

Fixpoint appendAll (l : list A) (acc : list B) : result (list B) :=
  match l with
  | [] => Ok acc
  | x :: rest => ys ← bodies x; appendAll rest (acc ++ ys)
  end.
End Append.

Section Extract.
(** [token.IsExported]: the name starts with an upper-case letter. *)
Variable IsExported : string -> bool.
(** [fmt.Sprint] of an [ast.Expr]. *)
Variable Sprint : ast.Expr -> string.

Section Signature.
Variable formatType : ast.TypeSpec -> Z -> result Symbol.

Definition funcSpecWith (decl : ast.FuncType) : result FuncSpec :=
  params ←
    match ast.Params decl with
    | Some list =>
        appendEach (fun param => formatType (ast.mkTypeSpec None (ast.Typ param)) 0)
                   list []
    | None => Ok []
    end;
  returns ←
    match ast.Results decl with
    | Some list =>
        appendEach (fun result => formatType (ast.mkTypeSpec None (ast.Typ result)) 0)
                   list []
    | None => Ok []
    end;
  Ok {| Params := params; Returns := returns |}.

(** The body of the loop over [specType.Methods.List]. *)
Definition interfaceMemberWith (methodDecl : ast.Field) : result Symbol :=
  match ast.Names methodDecl with
  | [] =>
      match ast.Typ methodDecl with
      | ast.IdentExpr id =>
          Ok (mkSymbol (ast.Name id) "embed" "" "" "" 0 [] None)
      | _ => Panic TypeAssertion
      end
  | name0 :: _ =>
      match ast.Typ methodDecl with
      | ast.FuncTypeExpr ft =>
          fs ← funcSpecWith ft;
          Ok (mkSymbol (ast.Name name0) "method" "" "" "" 0 [] (Some fs))
      | _ => Panic TypeAssertion
      end
  end.
End Signature.

(** The body of the loop over [specType.Fields.List]. *)
Definition structMember (methodDecl : ast.Field) : result Symbol :=
  match ast.Names methodDecl with
  | [] =>
      match ast.Typ methodDecl with
      | ast.IdentExpr id =>
          Ok (mkSymbol (ast.Name id) "embed" "" "" "" 0 [] None)
      | _ => Panic TypeAssertion
      end
  | name0 :: _ =>
      Ok (mkSymbol (ast.Name name0) "member" "" "" "" 0 [] None)
  end.

(** [spec.Pos()] is [spec.Name.Pos()]. *)
Definition TypeSpec_Pos (Name : option ast.Ident) : result Z :=
  match Name with
  | Some id => Ok (ast.NamePos id)
  | None => Panic NilDereference
  end.

(** The tail shared by the four cases of [formatType]. *)
Definition withPos (Name : option ast.Ident) (basePos : Z) (res : Symbol)
    : result Symbol :=
  if negb (Z.eqb basePos 0)
  then pos ← TypeSpec_Pos Name; Ok (setPos res (subPos pos basePos))
  else Ok res.

Definition specLabel (Name : option ast.Ident) : string :=
  match Name with
  | Some id => ast.Name id
  | None => ""
  end.

(** [formatType] on the two fields of its [spec]; the recursion goes
    through [funcSpec] into the parameter and result types of the methods of
    an interface. *)
Fixpoint formatTypeOf (Name : option ast.Ident) (Type_ : ast.Expr) (basePos : Z)
    {struct Type_} : result Symbol :=
  match Type_ with
  | ast.InterfaceType methods =>
      members ←
        appendEach
          (interfaceMemberWith
             (fun spec basePos =>
                formatTypeOf (ast.SpecName spec) (ast.SpecType spec) basePos))
          methods [];
      withPos Name basePos
        (mkSymbol (specLabel Name) "interface" "" "" "" 0 members None)
  | ast.StructType fields =>
      members ← appendEach structMember fields [];
      withPos Name basePos
        (mkSymbol (specLabel Name) "struct" "" "" "" 0 members None)
  | ast.IdentExpr specType =>
      withPos Name basePos
        (mkSymbol (specLabel Name) "type" (ast.Name specType) "" "" 0 [] None)
  | ast.ArrayType _ Elt =>
      withPos Name basePos
        (mkSymbol ("[]" +:+ Sprint Elt) "array" "" "" "" 0 [] None)
  | _ => Panic UnknownType
  end.

Definition formatType (spec : ast.TypeSpec) (basePos : Z) : result Symbol :=
  formatTypeOf (ast.SpecName spec) (ast.SpecType spec) basePos.

Definition funcSpec : ast.FuncType -> result FuncSpec := funcSpecWith formatType.

Definition interfaceMember : ast.Field -> result Symbol :=
  interfaceMemberWith formatType.

Definition findReceiver (decl : ast.FuncDecl) : result string :=
  match ast.Recv decl with
  | None => Panic NilDereference
  | Some List =>
      Ok ((fix loop (List : list ast.Field) : string :=
             match List with
             | [] => "unknown"
             | field :: rest =>
                 match ast.Typ field with
                 | ast.IdentExpr typ => ast.Name typ
                 | _ => loop rest
                 end
             end) List)
  end.

(** One iteration of [for _, spec := range decl.Specs] in [main]: the
    symbols it appends to [exports]. *)
Definition specExports (fileName : string) (file : ast.File) (spec : ast.Spec)
    : result SymbolList :=
  match spec with
  | ast.TypeSpecOf spec =>
      match ast.SpecName spec with
      | None => Panic NilDereference
      | Some Name =>
          if negb (IsExported (ast.Name Name)) then Ok []
          else
            res ← formatType spec (ast.Package file);
            Ok [setFileName res fileName]
      end
  | ast.ValueSpec Names =>
      match Names with
      | [] => Panic IndexOutOfRange
      | name0 :: _ =>
          if negb (IsExported (ast.Name name0)) then Ok []
          else Ok [mkSymbol (ast.Name name0) "var" "" "" fileName
                            (subPos (ast.NamePos name0) (ast.Package file)) [] None]
      end
  | ast.ImportSpec => Ok []
  end.

(** One iteration of [for _, decl := range file.Decls] in [main]. *)
Definition declExports (fileName : string) (file : ast.File) (decl : ast.Decl)
    : result SymbolList :=
  match decl with
  | ast.FuncDeclOf decl =>
      if negb (IsExported (ast.Name (ast.DeclName decl))) then Ok []
      else
        match ast.Recv decl with
        | None =>
            fs ← funcSpec (ast.DeclType decl);
            Ok [mkSymbol (ast.Name (ast.DeclName decl)) "func" "" "" fileName
                         (subPos (ast.FuncDecl_Pos decl) (ast.Package file))
                         [] (Some fs)]
        | Some _ =>
            receiver ← findReceiver decl;
            fs ← funcSpec (ast.DeclType decl);
            Ok [mkSymbol (ast.Name (ast.DeclName decl)) "method" "" receiver fileName
                         (subPos (ast.FuncDecl_Pos decl) (ast.Package file))
                         [] (Some fs)]
        end
  | ast.GenDecl Specs => appendAll (specExports fileName file) Specs []
  | ast.BadDecl => Ok []
  end.

(** The extraction loop of [main]: every declaration of every file of the
    package, the files in the order the runtime ranges over [pkg.Files]. *)
Definition mainExports (rt : MapRange) (Files : gmap string ast.File)
    : result SymbolList :=
  appendAll (fun entry : string * ast.File =>
               appendAll (declExports entry.1 entry.2) (ast.Decls entry.2) [])
            (range rt Files) [].
End Extract.

(** ** Notions used by the statements *)

(** Two runtimes: one ranges over a map in the order of [map_to_list], the
    other in the opposite order. *)
Definition rangeAsc : MapRange :=
  {| range := fun V m => map_to_list m;
     range_perm := fun V m => Permutation_refl (map_to_list m) |}.

Definition rangeDesc : MapRange :=
  {| range := fun V m => reverse (map_to_list m);
     range_perm := fun V m => reverse_Permutation (map_to_list m) |}.

(** Two outcomes that agree up to the order of the diagnostics. *)
Definition sameUpToOrder (r1 r2 : result (list string)) : Prop :=
  match r1, r2 with
  | Ok l1, Ok l2 => Permutation l1 l2
  | Panic p1, Panic p2 => p1 = p2
  | _, _ => False
  end.

(** The same for the state of the second loop of [compareSymbolList]. *)
Definition sameLoopState
    (r1 r2 : result (gmap string (option Symbol) * list string)) : Prop :=
  match r1, r2 with
  | Ok s1, Ok s2 => s1.1 = s2.1 /\ Permutation s1.2 s2.2
  | Panic p1, Panic p2 => p1 = p2
  | _, _ => False
  end.

(** [strings.Contains s sub] *)
Fixpoint Contains (s sub : string) : bool :=
  String.prefix sub s
  || match s with
     | EmptyString => false
     | String.String _ s' => Contains s' sub
     end.

Definition uniqueIdents (l : SymbolList) : bool :=
  bool_decide (NoDup (Ident <$> l)).

(** A symbol the extractor can have produced, as far as the comparator
    looks: the Idents of every list are pairwise different and a symbol of
    kind func carries its funcSpec. *)
Fixpoint wellFormed (s : Symbol) : bool :=
  uniqueIdents (Members s) && forallb wellFormed (Members s)
  && (if String.eqb (SymbolType s) "func"
      then match FuncSpecPtr s with
           | Some fs =>
               uniqueIdents (Params fs) && forallb wellFormed (Params fs)
               && uniqueIdents (Returns fs) && forallb wellFormed (Returns fs)
           | None => false
           end
      else true).

Definition wellFormedTree (l : SymbolList) : bool :=
  uniqueIdents l && forallb wellFormed l.

Definition setLabel (s : Symbol) (label : string) : Symbol :=
  {| Label := label; SymbolType := SymbolType s;
     UnderlyingType := UnderlyingType s; ReceiverType := ReceiverType s;
     FileName := FileName s; Pos := Pos s;
     Members := Members s; FuncSpecPtr := FuncSpecPtr s |}.

Definition setMembers (s : Symbol) (members : SymbolList) : Symbol :=
  {| Label := Label s; SymbolType := SymbolType s;
     UnderlyingType := UnderlyingType s; ReceiverType := ReceiverType s;
     FileName := FileName s; Pos := Pos s;
     Members := members; FuncSpecPtr := FuncSpecPtr s |}.

(** [renamedIn m m' l l']: the list [l'] is [l] except that one member,
    [m], at some depth of the [Members] nesting, is replaced by [m']. *)
Inductive renamedIn (m m' : Symbol) : SymbolList -> SymbolList -> Prop :=
  | renamed_here pre post :
      renamedIn m m' (pre ++ m :: post) (pre ++ m' :: post)
  | renamed_below pre s members' post :
      renamedIn m m' (Members s) members' ->
      renamedIn m m' (pre ++ s :: post) (pre ++ setMembers s members' :: post).

Definition isOk {A} (r : result A) : bool :=
  match r with
  | Ok _ => true
  | Panic _ => false
  end.

(** The shapes [formatType] has a case for. *)
Definition supportedShape (e : ast.Expr) : bool :=
  match e with
  | ast.InterfaceType _ | ast.StructType _ | ast.IdentExpr _ | ast.ArrayType _ _ => true
  | _ => false
  end.

Definition isIdentExpr (e : ast.Expr) : bool :=
  match e with
  | ast.IdentExpr _ => true
  | _ => false
  end.

(** An embedded member: a field without names. *)
Definition embedded (f : ast.Field) : bool :=
  match ast.Names f with
  | [] => true
  | _ :: _ => false
  end.

(** [token.IsExported] on names that start with an ASCII character. *)
Definition IsExportedASCII (name : string) : bool :=
  match name with
  | String.String c _ => (65 <=? Ascii.nat_of_ascii c)%nat && (Ascii.nat_of_ascii c <=? 90)%nat
  | EmptyString => false
  end.

(** The two messages about unmatched symbols. *)
Definition missing (symbol : Symbol) : string := "missing symbol: " +:+ String symbol.
Definition extra (symbol : Symbol) : string := "extra symbol found: " +:+ String symbol.

(** The entries of the lookup the third loop reports: those not set to nil. *)
Definition unconsumed (entries : list (string * option Symbol)) : list Symbol :=
  omap snd entries.

(** The lookup after the second loop has consumed the Idents of [target]. *)
Definition consume (target : SymbolList) (agg : gmap string (option Symbol))
    : gmap string (option Symbol) :=
  fold_left (fun agg symbol => <[Ident symbol := None]> agg) target agg.

(** ** Symbol trees the statements are evaluated at *)

Definition typeSymbol (underlyingType : string) : Symbol :=
  mkSymbol "" "type" underlyingType "" "" 0 [] None.

Definition funcSymbol (label : string) (params returns : SymbolList) : Symbol :=
  mkSymbol label "func" "" "" "" 0 [] (Some (mkFuncSpec params returns)).

Definition varSymbol (label : string) : Symbol :=
  mkSymbol label "var" "" "" "" 0 [] None.

Definition memberSymbol (label : string) : Symbol :=
  mkSymbol label "member" "" "" "" 0 [] None.

Definition structSymbol (label : string) (members : SymbolList) : Symbol :=
  mkSymbol label "struct" "" "" "" 0 members None.

Definition methodSymbol (receiver label : string) (params returns : SymbolList) : Symbol :=
  mkSymbol label "method" "" receiver "" 0 [] (Some (mkFuncSpec params returns)).

Definition interfaceSymbol (label : string) (members : SymbolList) : Symbol :=
  mkSymbol label "interface" "" "" "" 0 members None.

(** [func Foo(a string, b int)] *)
Definition twoParameters : SymbolList :=
  [funcSymbol "Foo" [typeSymbol "string"; typeSymbol "int"] []].

(** [func Foo()] in the reference, [var Foo] now. *)
Definition funcFoo : SymbolList := [funcSymbol "Foo" [] []].
Definition varFoo : SymbolList := [varSymbol "Foo"].

(** A snapshot that lists [var A] twice. *)
Definition repeatedVar : SymbolList := [varSymbol "A"; varSymbol "A"].

(** [type I interface { M(string) }] against [type I interface { M(int) }],
    and [func (T) M(string)] against [func (T) M(int)]. *)
Definition interfaceOf (param : string) : SymbolList :=
  [interfaceSymbol "I" [methodSymbol "" "M" [typeSymbol param] []]].
Definition methodOf (param : string) : SymbolList :=
  [methodSymbol "T" "M" [typeSymbol param] []].

(** [func Foo(string)] against [func Foo(int)]. *)
Definition fooOf (param : string) : SymbolList :=
  [funcSymbol "Foo" [typeSymbol param] []].

(** [type S struct { A; B }] against the same with [B] renamed to [C]. *)
Definition structOf (second : string) : SymbolList :=
  [structSymbol "S" [memberSymbol "A"; memberSymbol second]].

(** Two variables, and the same with a function added between them. *)
Definition twoVars : SymbolList := [varSymbol "A"; varSymbol "B"].
Definition twoVarsAndFoo : SymbolList :=
  [varSymbol "A"; funcSymbol "Foo" [] []; varSymbol "B"].

(** ** Declarations the statements are evaluated at *)

(** [fmt.Sprint] of an identifier is its name; what it prints for the other
    nodes is not looked at by any statement. *)
Definition SprintName (e : ast.Expr) : string :=
  match e with
  | ast.IdentExpr id => ast.Name id
  | _ => "&{}"
  end.

Definition ident (name : string) : ast.Ident := ast.mkIdent 0 name.
Definition named (name : string) : ast.Expr := ast.IdentExpr (ident name).

(** [type F func()] in the only file of a package. *)
Definition funcTypeSpec : ast.TypeSpec :=
  ast.mkTypeSpec (Some (ast.mkIdent 19 "F"))
                 (ast.FuncTypeExpr (ast.mkFuncType 21 (Some []) None)).
Definition funcTypeFile : ast.File :=
  ast.mkFile 1 [ast.GenDecl [ast.TypeSpecOf funcTypeSpec]].
Definition funcTypePackage : gmap string ast.File :=
  <["a.go" := funcTypeFile]> empty.

(** [func (t T) Get(k string) int] and [func (t *T) Set(k string)]. *)
Definition valueReceiver : ast.Field := ast.mkField [ident "t"] (named "T").
Definition pointerReceiver : ast.Field :=
  ast.mkField [ident "t"] (ast.StarExpr (named "T")).
Definition getDecl : ast.FuncDecl :=
  ast.mkFuncDecl (Some [valueReceiver]) (ident "Get")
    (ast.mkFuncType 30 (Some [ast.mkField [ident "k"] (named "string")])
                       (Some [ast.mkField [] (named "int")])).
Definition setDecl : ast.FuncDecl :=
  ast.mkFuncDecl (Some [pointerReceiver]) (ident "Set")
    (ast.mkFuncType 70 (Some [ast.mkField [ident "k"] (named "string")]) None).
(** [func (t T) Put(v *int)] *)
Definition putDecl : ast.FuncDecl :=
  ast.mkFuncDecl (Some [valueReceiver]) (ident "Put")
    (ast.mkFuncType 90 (Some [ast.mkField [ident "v"] (ast.StarExpr (named "int"))]) None).

(** The embedded member [pkg.Iface], and the method [M(x *int)]. *)
Definition qualifiedEmbed : ast.Field :=
  ast.mkField [] (ast.SelectorExpr (named "pkg") (ident "Iface")).
Definition methodOfPointer : ast.Field :=
  ast.mkField [ident "M"]
    (ast.FuncTypeExpr
       (ast.mkFuncType 0 (Some [ast.mkField [ident "x"] (ast.StarExpr (named "int"))]) None)).
Definition methodOfString : ast.Field :=
  ast.mkField [ident "M"]
    (ast.FuncTypeExpr
       (ast.mkFuncType 0 (Some [ast.mkField [ident "x"] (named "string")]) None)).

(** [type S struct { A int; pkg.Iface }] *)
Definition structWithQualifiedEmbed : ast.TypeSpec :=
  ast.mkTypeSpec (Some (ident "S"))
    (ast.StructType [ast.mkField [ident "A"] (named "int"); qualifiedEmbed]).
(** [type I interface { M(x string); pkg.Iface }] *)
Definition interfaceWithQualifiedEmbed : ast.TypeSpec :=
  ast.mkTypeSpec (Some (ident "I")) (ast.InterfaceType [methodOfString; qualifiedEmbed]).
(** [type I interface { M(x *int); pkg.Iface }] *)
Definition interfaceWithPointerMethod : ast.TypeSpec :=
  ast.mkTypeSpec (Some (ident "I")) (ast.InterfaceType [methodOfPointer; qualifiedEmbed]).

(** ** Notions used by the further properties *)

Definition setFuncSpecPtr (s : Symbol) (funcSpec : option FuncSpec) : Symbol :=
  {| Label := Label s; SymbolType := SymbolType s;
     UnderlyingType := UnderlyingType s; ReceiverType := ReceiverType s;
     FileName := FileName s; Pos := Pos s;
     Members := Members s; FuncSpecPtr := funcSpec |}.

(** A snapshot with a struct, a function and a method. *)
Definition smallTree : SymbolList :=
  [structSymbol "S" [memberSymbol "A"; memberSymbol "B"];
   funcSymbol "Foo" [typeSymbol "string"] [typeSymbol "error"];
   methodSymbol "T" "M" [typeSymbol "int"; typeSymbol "int"] []].

(** The symbol without its location, at every depth. *)
Fixpoint eraseLocation (s : Symbol) : Symbol :=
  {| Label := Label s; SymbolType := SymbolType s;
     UnderlyingType := UnderlyingType s; ReceiverType := ReceiverType s;
     FileName := ""; Pos := 0;
     Members := eraseLocation <$> Members s;
     FuncSpecPtr :=
       match FuncSpecPtr s with
       | Some fs => Some {| Params := eraseLocation <$> Params fs;
                            Returns := eraseLocation <$> Returns fs |}
       | None => None
       end |}.

Definition eraseEntry (entry : option Symbol) : option Symbol :=
  eraseLocation <$> entry.

(** Two outcomes with the same verdict: the same panic, or as many
    diagnostics. *)
Definition sameVerdict (r1 r2 : result (list string)) : Prop :=
  match r1, r2 with
  | Ok l1, Ok l2 => length l1 = length l2
  | Panic p1, Panic p2 => p1 = p2
  | _, _ => False
  end.

Definition sameLoopVerdict
    (r1 r2 : result (gmap string (option Symbol) * list string)) : Prop :=
  match r1, r2 with
  | Ok s1, Ok s2 => s2.1 = eraseEntry <$> s1.1 /\ length s1.2 = length s2.2
  | Panic p1, Panic p2 => p1 = p2
  | _, _ => False
  end.

(** The snapshot [smallTree] as read from two files. *)
Definition located (fileName : string) (pos : Z) (s : Symbol) : Symbol :=
  setPos (setFileName s fileName) pos.
Definition smallTreeAt (fileName : string) (pos : Z) : SymbolList :=
  located fileName pos <$> smallTree.
Definition twoVarsAndFooAt (fileName : string) (pos : Z) : SymbolList :=
  located fileName pos <$> twoVarsAndFoo.



(** The type expressions that [formatType] classifies without a panic:
    identifiers, slices and arrays; structs whose embedded fields are
    identifiers; interfaces whose embedded members are identifiers and whose
    methods have parameter and result types that classify. *)
Definition signatureClassifiesWith (classifies : ast.Expr -> bool)
    (ft : ast.FuncType) : bool :=
  match ast.Params ft with
  | Some list => forallb (fun f => classifies (ast.Typ f)) list
  | None => true
  end
  && match ast.Results ft with
     | Some list => forallb (fun f => classifies (ast.Typ f)) list
     | None => true
     end.

Fixpoint classifies (e : ast.Expr) : bool :=
  match e with
  | ast.IdentExpr _ | ast.ArrayType _ _ => true
  | ast.StructType fields =>
      forallb (fun f => negb (embedded f) || isIdentExpr (ast.Typ f)) fields
  | ast.InterfaceType methods =>
      forallb (fun m =>
                 match ast.Names m with
                 | [] => isIdentExpr (ast.Typ m)
                 | _ :: _ =>
                     match ast.Typ m with
                     | ast.FuncTypeExpr ft => signatureClassifiesWith classifies ft
                     | _ => false
                     end
                 end) methods
  | _ => false
  end.

Definition signatureClassifies : ast.FuncType -> bool :=
  signatureClassifiesWith classifies.

(** [type Store interface { Reader; Get(k string) (v []byte, ok bool) }] *)
Definition storeInterface : ast.Expr :=
  ast.InterfaceType
    [ast.mkField [] (named "Reader");
     ast.mkField [ident "Get"]
       (ast.FuncTypeExpr
          (ast.mkFuncType 0
             (Some [ast.mkField [ident "k"] (named "string")])
             (Some [ast.mkField [ident "v"] (ast.ArrayType None (named "byte"));
                    ast.mkField [ident "ok"] (named "bool")])))].

(** What an induction over a type expression gives for the parameter and
    result types of a method signature. *)
Definition signatureAll (P : ast.Expr -> Prop) (ft : ast.FuncType) : Prop :=
  (forall list, ast.Params ft = Some list -> Forall (fun f => P (ast.Typ f)) list)
  /\ (forall list, ast.Results ft = Some list -> Forall (fun f => P (ast.Typ f)) list).

(** [formatType] returns a symbol for [e] exactly when [classifies e]. *)
Definition classifiedWhenOk (Sprint : ast.Expr -> string) (e : ast.Expr) : Prop :=
  forall Name basePos,
    basePos = 0%Z \/ is_Some Name ->
    isOk (formatTypeOf Sprint Name e basePos) = classifies e.

(** The shapes of the symbols the extractor makes. *)
Definition isNil {A} (l : list A) : bool :=
  match l with
  | [] => true
  | _ :: _ => false
  end.

Definition hasFuncSpec (s : Symbol) : bool :=
  match FuncSpecPtr s with
  | Some _ => true
  | None => false
  end.

(** A member of a struct: an embed or a member, without structure. *)
Definition structMemberShape (s : Symbol) : bool :=
  (String.eqb (SymbolType s) "embed" || String.eqb (SymbolType s) "member")
  && negb (hasFuncSpec s) && isNil (Members s).

(** A member of an interface: an embed, or a method with its funcSpec. *)
Definition interfaceMemberShape (s : Symbol) : bool :=
  (String.eqb (SymbolType s) "embed" && negb (hasFuncSpec s)
   || String.eqb (SymbolType s) "method" && hasFuncSpec s)
  && isNil (Members s).

(** What [formatType] returns: no funcSpec, no receiver, no file name, and
    members only for the kinds interface and struct. *)
Definition declaredTypeShape (s : Symbol) : bool :=
  negb (hasFuncSpec s) && String.eqb (ReceiverType s) "" && String.eqb (FileName s) ""
  && (String.eqb (SymbolType s) "interface" && forallb interfaceMemberShape (Members s)
      || String.eqb (SymbolType s) "struct" && forallb structMemberShape (Members s)
      || (String.eqb (SymbolType s) "type" || String.eqb (SymbolType s) "array")
         && isNil (Members s)).

(** What [funcSpec] returns: parameters and results without a position. *)
Definition signatureShape (fs : FuncSpec) : bool :=
  forallb (fun s => declaredTypeShape s && Z.eqb (Pos s) 0) (Params fs)
  && forallb (fun s => declaredTypeShape s && Z.eqb (Pos s) 0) (Returns fs).

(** What [main] appends to [exports] for the file [fileName]. *)
Definition exportedShape (fileName : string) (s : Symbol) : bool :=
  String.eqb (FileName s) fileName
  && (if String.eqb (SymbolType s) "func"
      then String.eqb (ReceiverType s) "" && isNil (Members s)
           && match FuncSpecPtr s with Some fs => signatureShape fs | None => false end
      else if String.eqb (SymbolType s) "method"
      then isNil (Members s)
           && match FuncSpecPtr s with Some fs => signatureShape fs | None => false end
      else if String.eqb (SymbolType s) "var"
      then negb (hasFuncSpec s) && isNil (Members s) && String.eqb (ReceiverType s) ""
      else declaredTypeShape (setFileName s "")).

(** Two extraction runs that differ in the order of the files only. *)
Definition sameExports (r1 r2 : result SymbolList) : Prop :=
  match r1, r2 with
  | Ok t1, Ok t2 => Permutation t1 t2
  | Panic _, Panic _ => True
  | _, _ => False
  end.

(** What an iteration appends, when it does not panic. *)
Definition outputs {A B} (bodies : A -> result (list B)) (x : A) : list B :=
  match bodies x with
  | Ok ys => ys
  | Panic _ => []
  end.

(** The declarations [main] skips. *)
Definition unexportedSpec (IsExported : string -> bool) (spec : ast.Spec) : bool :=
  match spec with
  | ast.ImportSpec => true
  | ast.ValueSpec (name0 :: _) => negb (IsExported (ast.Name name0))
  | ast.ValueSpec [] => false
  | ast.TypeSpecOf spec =>
      match ast.SpecName spec with
      | Some Name => negb (IsExported (ast.Name Name))
      | None => false
      end
  end.

Definition unexportedDecl (IsExported : string -> bool) (decl : ast.Decl) : bool :=
  match decl with
  | ast.BadDecl => true
  | ast.GenDecl Specs => forallb (unexportedSpec IsExported) Specs
  | ast.FuncDeclOf decl => negb (IsExported (ast.Name (ast.DeclName decl)))
  end.

(** A file with one declaration of each kind, and a file of unexported
    declarations that [formatType] and [funcSpec] would not accept. *)
Definition apiFile : ast.File :=
  ast.mkFile 1
    [ast.GenDecl [ast.ImportSpec;
                  ast.TypeSpecOf (ast.mkTypeSpec (Some (ast.mkIdent 20 "Store")) storeInterface);
                  ast.ValueSpec [ast.mkIdent 90 "Default"; ast.mkIdent 99 "other"]];
     ast.FuncDeclOf getDecl;
     ast.FuncDeclOf setDecl].
Definition internalFile : ast.File :=
  ast.mkFile 1
    [ast.GenDecl [ast.TypeSpecOf
                    (ast.mkTypeSpec (Some (ast.mkIdent 20 "handler"))
                       (ast.FuncTypeExpr (ast.mkFuncType 30 (Some []) None)));
                  ast.ValueSpec [ast.mkIdent 50 "cache"]];
     ast.FuncDeclOf
       (ast.mkFuncDecl None (ident "helper")
          (ast.mkFuncType 70
             (Some [ast.mkField [ident "m"] (ast.MapType (named "string") (named "int"))])
             None))].
Definition apiPackage : gmap string ast.File :=
  <["api.go" := apiFile]> (<["internal.go" := internalFile]> empty).
Definition internalPackage : gmap string ast.File :=
  <["internal.go" := internalFile]> empty.

(** The tree of [apiPackage]. *)
Definition apiTree : SymbolList :=
  [mkSymbol "Store" "interface" "" "" "api.go" 19
     [mkSymbol "Reader" "embed" "" "" "" 0 [] None;
      mkSymbol "Get" "method" "" "" "" 0 []
        (Some (mkFuncSpec [typeSymbol "string"]
            [mkSymbol "[]byte" "array" "" "" "" 0 [] None; typeSymbol "bool"]))]
     None;
   mkSymbol "Default" "var" "" "" "api.go" 89 [] None;
   mkSymbol "Get" "method" "" "T" "api.go" 29 []
     (Some (mkFuncSpec [typeSymbol "string"] [typeSymbol "int"]));
   mkSymbol "Set" "method" "" "unknown" "api.go" 69 []
     (Some (mkFuncSpec [typeSymbol "string"] []))].

(** ** The program *)

(** How [main] ends: with [os.Exit] (or by returning, code 0) after what
    it printed, or with a panic. *)
Inductive MainPanic :=
  | MultiplePackagesFound     (* [panic("multiple packages found")] *)
  | BaselineError             (* [panic(err)] of [ioutil.ReadFile] or [json.Unmarshal] *)
  | RuntimePanic (p : PanicKind).

Inductive Outcome :=
  | Exit (code : Z) (stdout stderr : list string)
  | Crash (p : MainPanic).

(** The separator ["\r\n"] of the diagnostics. *)
Definition CRLF : string :=
  String.String (Ascii.ascii_of_nat 13) (String.String (Ascii.ascii_of_nat 10) EmptyString).

(** [strings.Join] *)
Definition Join (elems : list string) (sep : string) : string :=
  match elems with
  | [] => ""
  | first :: rest => fold_left (fun joined elem => joined +:+ sep +:+ elem) rest first
  end.

Section Main.
Variable IsExported : string -> bool.
Variable Sprint : ast.Expr -> string.
(** [json.Marshal] of the exports. *)
Variable Marshal : SymbolList -> string.
Variable rt : MapRange.

(** The package [main] works on: the one named by [-p], or the only one
    of the directory.  An [*ast.Package] is its map [Files]; a name that
    [pkgs] does not have gives nil, whose [Files] cannot be read. *)
Definition selectPackage (pkgs : gmap string (gmap string ast.File)) (pkgName : string)
    : MainPanic + gmap string ast.File :=
  let selected :=
    if String.eqb pkgName ""
    then
      if Nat.eqb (size pkgs) 1
      then inr (fold_left (fun _ entry => entry.1) (range rt pkgs) pkgName)
      else inl MultiplePackagesFound
    else inr pkgName in
  match selected with
  | inl p => inl p
  | inr pkgName =>
      match pkgs !! pkgName with
      | Some Files => inr Files
      | None => inl (RuntimePanic NilDereference)
      end
  end.

(** [main], from the result of [parser.ParseDir] on: [err] is its error,
    [pkgName] and [compareTo] are the flags [-p] and [-c], and [refData] is
    what reading and decoding the file [compareTo] gives, if that works. *)
Definition main (pkgs : gmap string (gmap string ast.File)) (err : option string)
    (pkgName compareTo : string) (refData : option SymbolList) : Outcome :=
  match err with
  | Some message => Exit 1 [] [message]
  | None =>
      match selectPackage pkgs pkgName with
      | inl p => Crash p
      | inr Files =>
          match mainExports IsExported Sprint rt Files with
          | Panic p => Crash (RuntimePanic p)
          | Ok exports =>
              if negb (String.eqb compareTo "")
              then
                match refData with
                | None => Crash BaselineError
                | Some refData =>
                    match compareSymbolList rt refData exports true with
                    | Panic p => Crash (RuntimePanic p)
                    | Ok diff =>
                        if (0 <? length diff)%nat
                        then Exit 2 [] [Join diff CRLF; "symbols are not compatible"]
                        else Exit 0 [] ["symbols are compatible"]
                    end
                end
              else Exit 0 [Marshal exports] []
          end
      end
  end.
End Main.

(** A stand-in for [json.Marshal] that prints the Idents. *)
Definition MarshalIdents (exports : SymbolList) : string :=
  Join (Ident <$> exports) ",".

(** A directory with the package [api], and one with a second package. *)
Definition onePackage : gmap string (gmap string ast.File) :=
  <["api" := apiPackage]> empty.
Definition twoPackages : gmap string (gmap string ast.File) :=
  <["api" := apiPackage]> (<["internal" := internalPackage]> empty).

(** One iteration of the second loop of [compareSymbolList], as a function
    of the lookup it meets: what it appends, and what it leaves. *)
Definition targetStep (cmp : Symbol -> Symbol -> bool -> result (list string))
    (cmpLabel : bool) (agg : gmap string (option Symbol)) (symbol : Symbol)
    : result (list string) :=
  match agg !! Ident symbol with
  | Some (Some orig) => cmp orig symbol cmpLabel
  | Some None => Panic NilDereference
  | None => Ok ["extra symbol found: " +:+ String symbol]
  end.

Definition consumeFound (target : SymbolList) (agg : gmap string (option Symbol))
    : gmap string (option Symbol) :=
  fold_left (fun agg symbol =>
               match agg !! Ident symbol with
               | Some _ => <[Ident symbol := None]> agg
               | None => agg
               end) target agg.

(** The character ['.'], code 46. *)
Definition dot : Ascii.ascii :=
  Ascii.Ascii false true true true false true false false.

(** A name without a dot, as the names of Go types are. *)
Fixpoint noDot (s : string) : bool :=
  match s with
  | EmptyString => true
  | String.String c s' => negb (Ascii.eqb c dot) && noDot s'
  end.

(** The snapshot of [apiPackage] after [Default] has been withdrawn. *)
Definition apiTreeWithoutDefault : SymbolList :=
  filter (fun s => Label s <> "Default") apiTree.

(** * Properties *)

(** ** Structural induction over a symbol and everything nested in it *)

Section SymbolInduction.
Variable P : Symbol -> Prop.
Hypothesis step : forall s,
  Forall P (Members s) ->
  (forall fs, FuncSpecPtr s = Some fs -> Forall P (Params fs) /\ Forall P (Returns fs)) ->
  P s.

Lemma Symbol_nested_ind (s : Symbol) : P s.
Proof.
  revert s. fix IH 1. intros [l t u r f p ms fsp].
  apply step; simpl.
  - induction ms as [|x rest IHl]; constructor; [apply IH | exact IHl].
  - destruct fsp as [[ps rs]|]; intros fs E; [|discriminate E].
    injection E as <-. simpl. split.
    + induction ps as [|x rest IHl]; constructor; [apply IH | exact IHl].
    + induction rs as [|x rest IHl]; constructor; [apply IH | exact IHl].
Qed.
End SymbolInduction.

(** ** The three loops of [compareSymbolList] *)

Lemma compareSymbol_unfold rt a b cmpLabel :
  compareSymbol rt a b cmpLabel =
    let diffs := [] in
    let diffs :=
      if negb (String.eqb (SymbolType a) (SymbolType b))
      then diffs ++ [String a +:+ " and " +:+ String b
                       +:+ " have different symbol types: "
                       +:+ SymbolType a +:+ " and " +:+ SymbolType b]
      else diffs in
    let diffs :=
      if cmpLabel && negb (String.eqb (Label a) (Label b))
      then diffs ++ [String a +:+ " and " +:+ String b
                       +:+ " have different labels: "
                       +:+ Label a +:+ " and " +:+ Label b]
      else diffs in
    let diffs :=
      if String.eqb (SymbolType a) "type"
         && negb (String.eqb (UnderlyingType a) (UnderlyingType b))
      then diffs ++ ["type alias " +:+ String a +:+ " and " +:+ String b
                       +:+ " have different underlying types: "
                       +:+ UnderlyingType a +:+ " and " +:+ UnderlyingType b]
      else diffs in
    let diffs :=
      if String.eqb (SymbolType a) "method"
         && negb (String.eqb (ReceiverType a) (ReceiverType b))
      then diffs ++ ["method " +:+ String a +:+ " and " +:+ String b
                       +:+ " have different receiver types: "
                       +:+ ReceiverType a +:+ " and " +:+ ReceiverType b]
      else diffs in
    ms ← compareSymbolList rt (Members a) (Members b) true;
    let diffs := diffs ++ ms in
    if String.eqb (SymbolType a) "func"
    then
      match FuncSpecPtr a, FuncSpecPtr b with
      | Some fa, Some fb =>
          fs ← compareFuncSpec rt fa fb;
          Ok (diffs ++ fs)
      | _, _ => Panic NilDereference
      end
    else Ok diffs.
Proof. destruct b; reflexivity. Qed.

Lemma missingLoop_spec entries diffs :
  missingLoop entries diffs = diffs ++ (missing <$> unconsumed entries).
Proof.
  revert diffs. induction entries as [|[k [s|]] rest IH]; intros diffs; simpl.
  - by rewrite app_nil_r.
  - unfold missingLoop in *. simpl. rewrite IH. by rewrite <- app_assoc.
  - unfold missingLoop in *. simpl. by rewrite IH.
Qed.

Lemma unconsumed_Permutation l1 l2 :
  Permutation l1 l2 -> Permutation (unconsumed l1) (unconsumed l2).
Proof. intros H. unfold unconsumed. by rewrite H. Qed.

Lemma Permutation_length_le_1 {A} (l1 l2 : list A) :
  Permutation l1 l2 -> length l2 <= 1 -> l1 = l2.
Proof.
  intros H Hlen. destruct l2 as [|x [|y l2]]; simpl in Hlen; [| |lia].
  - by apply Permutation_nil_r.
  - by apply Permutation_singleton_r.
Qed.

(** A lookup whose entries are all nil reports nothing. *)
Lemma unconsumed_none rt (agg : gmap string (option Symbol)) :
  (forall k v, agg !! k = Some v -> v = None) ->
  unconsumed (range rt agg) = [].
Proof.
  intros Hnone.
  assert (Hall : forall l : list (string * option Symbol),
    (forall kv, kv ∈ l -> kv.2 = None) -> unconsumed l = []).
  { induction l as [|[k v] l IH]; intros Hl; [done|].
    assert (v = None) as -> by (apply (Hl (k, v)); left).
    unfold unconsumed in *. simpl. apply IH. intros kv Hkv. apply Hl. by right. }
  apply Hall. intros [k v] Hkv.
  rewrite (range_perm rt) in Hkv. apply elem_of_map_to_list in Hkv. eauto.
Qed.

(** A lookup with one entry that is not nil reports that entry. *)
Lemma unconsumed_one rt (agg : gmap string (option Symbol)) k s :
  agg !! k = Some (Some s) ->
  (forall k' v, k' <> k -> agg !! k' = Some v -> v = None) ->
  unconsumed (range rt agg) = [s].
Proof.
  intros Hk Hnone.
  apply Permutation_length_le_1; [|simpl; lia].
  rewrite (unconsumed_Permutation _ _ (range_perm rt _ agg)).
  rewrite <- (insert_id agg k (Some s)) by done.
  rewrite <- insert_delete_eq.
  rewrite (unconsumed_Permutation _ _ (map_to_list_insert _ _ _ (lookup_delete_eq agg k))).
  unfold unconsumed at 1. simpl. constructor.
  change (list_omap _ _ snd (map_to_list (delete k agg))) with
    (unconsumed (range rangeAsc (delete k agg))).
  rewrite unconsumed_none; [done|].
  intros k' v Hk'. destruct (decide (k' = k)) as [->|Hne].
  - by rewrite lookup_delete_eq in Hk'.
  - rewrite lookup_delete_ne in Hk' by done. eauto.
Qed.

Lemma consume_lookup target agg k :
  consume target agg !! k =
    if decide (k ∈ Ident <$> target) then Some None else agg !! k.
Proof.
  revert agg. induction target as [|s rest IH]; intros agg.
  - destruct (decide (k ∈ Ident <$> [])) as [H|H]; [|done].
    by apply elem_of_nil in H.
  - unfold consume in *. rewrite fmap_cons. cbn [fold_left]. rewrite IH.
    destruct (decide (k ∈ Ident <$> rest)) as [Hin|Hnin].
    + rewrite decide_True; [done|]. by right.
    + destruct (decide (k = Ident s)) as [->|Hne].
      * rewrite decide_True by left. apply lookup_insert_eq.
      * rewrite decide_False.
        -- by rewrite lookup_insert_ne.
        -- intros Hin. apply elem_of_cons in Hin as [?|?]; done.
Qed.

Lemma buildAgg_from_lookup source (agg : gmap string (option Symbol)) k :
  k ∉ Ident <$> source ->
  fold_left (fun agg symbol => <[Ident symbol := Some symbol]> agg) source agg !! k
  = agg !! k.
Proof.
  revert agg. induction source as [|s rest IH]; intros agg Hk; simpl; [done|].
  rewrite fmap_cons in Hk. apply not_elem_of_cons in Hk as [Hne Hk].
  rewrite IH by done. by rewrite lookup_insert_ne.
Qed.

Lemma buildAgg_lookup_None source k :
  k ∉ Ident <$> source -> buildAgg source !! k = None.
Proof. intros Hk. unfold buildAgg. by rewrite buildAgg_from_lookup. Qed.

Lemma buildAgg_lookup_Some source s :
  NoDup (Ident <$> source) -> s ∈ source ->
  buildAgg source !! Ident s = Some (Some s).
Proof.
  unfold buildAgg. generalize (∅ : gmap string (option Symbol)).
  induction source as [|x rest IH]; intros agg Hnd Hin; simpl.
  - by apply elem_of_nil in Hin.
  - rewrite fmap_cons in Hnd. apply NoDup_cons in Hnd as [Hx Hnd].
    apply elem_of_cons in Hin as [->|Hin].
    + rewrite buildAgg_from_lookup by done. apply lookup_insert_eq.
    + by apply IH.
Qed.

Lemma buildAgg_lookup_is_key source k :
  k ∈ Ident <$> source -> is_Some (buildAgg source !! k).
Proof.
  unfold buildAgg. generalize (∅ : gmap string (option Symbol)).
  induction source as [|z source IH]; intros agg Hk; [by apply elem_of_nil in Hk|].
  simpl. destruct (decide (k ∈ Ident <$> source)) as [Hin|Hnin]; [by apply IH|].
  rewrite buildAgg_from_lookup by done.
  rewrite fmap_cons in Hk. apply elem_of_cons in Hk as [->|Hk]; [|done].
  by rewrite lookup_insert_eq.
Qed.

(** Every entry of the lookup is a symbol of the source under its Ident. *)
Lemma buildAgg_lookup_is_Some source k v :
  buildAgg source !! k = Some v -> exists s, v = Some s /\ s ∈ source /\ Ident s = k.
Proof.
  unfold buildAgg.
  assert (H : forall (agg : gmap string (option Symbol)),
    fold_left (fun agg symbol => <[Ident symbol := Some symbol]> agg) source agg !! k = Some v ->
    agg !! k = Some v \/ exists s, v = Some s /\ s ∈ source /\ Ident s = k).
  { induction source as [|x rest IH]; intros agg Hl; simpl in Hl; [by left|].
    apply IH in Hl as [Hl|(s & -> & Hin & <-)].
    - destruct (decide (Ident x = k)) as [<-|Hne].
      + rewrite lookup_insert_eq in Hl. injection Hl as <-.
        right. exists x. split_and!; [done|by left|done].
      + rewrite lookup_insert_ne in Hl by done. by left.
    - right. exists s. split_and!; [done|by right|done]. }
  intros Hl. apply H in Hl as [Hl|Hl]; [|done]. by rewrite lookup_empty in Hl.
Qed.

Section TargetLoop.
Variable rt : MapRange.
Variable cmp : Symbol -> Symbol -> bool -> result (list string).

Lemma targetLoop_app cmpLabel l1 l2 agg diffs :
  targetLoop cmp cmpLabel (l1 ++ l2) agg diffs =
    r ← targetLoop cmp cmpLabel l1 agg diffs;
    targetLoop cmp cmpLabel l2 r.1 r.2.
Proof.
  revert agg diffs. induction l1 as [|x l1 IH]; intros agg diffs; simpl; [done|].
  destruct (agg !! Ident x) as [[orig|]|]; [|done|by rewrite IH].
  destruct (cmp orig x cmpLabel) as [ds|p]; simpl; [by rewrite IH|done].
Qed.

(** Entries that find themselves in the lookup and compare equal to
    themselves are consumed without a diagnostic. *)
Lemma targetLoop_matched cmpLabel target agg diffs :
  NoDup (Ident <$> target) ->
  (forall s, s ∈ target -> agg !! Ident s = Some (Some s)) ->
  (forall s, s ∈ target -> cmp s s cmpLabel = Ok []) ->
  targetLoop cmp cmpLabel target agg diffs = Ok (consume target agg, diffs).
Proof.
  revert agg diffs. induction target as [|x rest IH]; intros agg diffs Hnd Hagg Hcmp.
  - done.
  - rewrite fmap_cons in Hnd. apply NoDup_cons in Hnd as [Hx Hnd].
    simpl. rewrite (Hagg x) by left. rewrite (Hcmp x) by left. simpl.
    rewrite app_nil_r. apply IH; [done| |].
    + intros s Hs. rewrite lookup_insert_ne.
      * apply Hagg. by right.
      * intros E. apply Hx. rewrite E. by apply list_elem_of_fmap_2.
    + intros s Hs. apply Hcmp. by right.
Qed.

Lemma compareSymbolListWith_spec source target cmpLabel :
  compareSymbolListWith rt cmp source target cmpLabel =
    r ← targetLoop cmp cmpLabel target (buildAgg source) [];
    Ok (r.2 ++ (missing <$> unconsumed (range rt r.1))).
Proof.
  unfold compareSymbolListWith.
  destruct (targetLoop cmp cmpLabel target (buildAgg source) []) as [[agg diffs]|p];
    simpl; [|done].
  by rewrite missingLoop_spec.
Qed.

(** Comparing a list of distinct Idents with itself. *)
Lemma compareSymbolListWith_same l cmpLabel :
  NoDup (Ident <$> l) ->
  (forall s, s ∈ l -> cmp s s cmpLabel = Ok []) ->
  compareSymbolListWith rt cmp l l cmpLabel = Ok [].
Proof.
  intros Hnd Hcmp. rewrite compareSymbolListWith_spec.
  rewrite targetLoop_matched; [|done| |done].
  - simpl. rewrite unconsumed_none; [done|].
    intros k v. rewrite consume_lookup. case_decide as Hk; [congruence|].
    by rewrite buildAgg_lookup_None.
  - intros s Hs. by apply buildAgg_lookup_Some.
Qed.

(** The state of the second loop when it reaches the entry after [pre],
    where [source] has the entries of [pre] and [post] around one other. *)
Lemma targetLoop_prefix cmpLabel pre a post :
  NoDup (Ident <$> pre ++ a :: post) ->
  (forall s, s ∈ pre -> cmp s s cmpLabel = Ok []) ->
  targetLoop cmp cmpLabel pre (buildAgg (pre ++ a :: post)) []
  = Ok (consume pre (buildAgg (pre ++ a :: post)), []).
Proof.
  intros Hnd Hcmp. apply targetLoop_matched; [|  |done].
  - rewrite fmap_app in Hnd. by apply NoDup_app in Hnd as [? _].
  - intros s Hs. apply buildAgg_lookup_Some; [done|].
    apply elem_of_app. by left.
Qed.

Lemma targetLoop_suffix cmpLabel pre a post b diffs :
  NoDup (Ident <$> pre ++ a :: post) ->
  (forall s, s ∈ post -> cmp s s cmpLabel = Ok []) ->
  Ident b ∉ Ident <$> pre ++ post ->
  let agg := <[Ident b := None]> (consume pre (buildAgg (pre ++ a :: post))) in
  targetLoop cmp cmpLabel post agg diffs = Ok (consume post agg, diffs).
Proof.
  intros Hnd Hcmp Hb agg. rewrite fmap_app, fmap_cons in Hnd.
  apply NoDup_app in Hnd as (Hpre & Hdisj & Hpost).
  apply NoDup_cons in Hpost as [Ha Hpost].
  apply targetLoop_matched; [done| |done].
  intros s Hs. unfold agg.
  assert (Hin : Ident s ∈ Ident <$> post) by by apply list_elem_of_fmap_2.
  rewrite lookup_insert_ne.
  2:{ intros E. apply Hb. rewrite E, fmap_app. apply elem_of_app. by right. }
  rewrite consume_lookup, decide_False.
  - apply buildAgg_lookup_Some.
    + rewrite fmap_app, fmap_cons. apply NoDup_app. split_and!; [done..|].
      by apply NoDup_cons.
    + apply elem_of_app. right. by right.
  - intros Hin'. apply (Hdisj _ Hin'). by right.
Qed.
End TargetLoop.

Section ListComparison.
Variable rt : MapRange.
Variable cmp : Symbol -> Symbol -> bool -> result (list string).

Lemma NoDup_idents_focus pre (a : Symbol) post :
  NoDup (Ident <$> pre ++ a :: post) ->
  NoDup (Ident <$> pre) /\ NoDup (Ident <$> post)
  /\ (Ident a ∉ Ident <$> pre) /\ (Ident a ∉ Ident <$> post)
  /\ (forall k, k ∈ Ident <$> pre -> k ∉ Ident <$> post).
Proof.
  rewrite fmap_app, fmap_cons. intros Hnd.
  apply NoDup_app in Hnd as (Hpre & Hdisj & Hpost).
  apply NoDup_cons in Hpost as [Ha Hpost].
  repeat split; [done|done| |done|].
  - intros Hin. apply (Hdisj _ Hin). by left.
  - intros k Hin Hin'. apply (Hdisj _ Hin). by right.
Qed.

(** One entry replaced by another of the same Ident: the diagnostics are
    those of the pair. *)
Lemma compareSymbolListWith_replaced pre a b post cmpLabel :
  NoDup (Ident <$> pre ++ a :: post) ->
  Ident b = Ident a ->
  (forall s, s ∈ pre ++ post -> cmp s s cmpLabel = Ok []) ->
  compareSymbolListWith rt cmp (pre ++ a :: post) (pre ++ b :: post) cmpLabel
  = cmp a b cmpLabel.
Proof.
  intros Hnd Hab Hcmp.
  destruct (NoDup_idents_focus _ _ _ Hnd) as (Hpre & Hpost & Hapre & Hapost & Hdisj).
  rewrite compareSymbolListWith_spec, targetLoop_app, targetLoop_prefix; [|done|].
  2:{ intros s Hs. apply Hcmp, elem_of_app. by left. }
  cbn [mbind result_bind fst snd targetLoop].
  rewrite Hab, consume_lookup, decide_False by done.
  rewrite buildAgg_lookup_Some; [|done|].
  2:{ apply elem_of_app. right. by left. }
  destruct (cmp a b cmpLabel) as [ds|p]; [|done].
  cbn [mbind result_bind]. rewrite <- Hab.
  rewrite (targetLoop_suffix cmp cmpLabel pre a post b); [|done| |].
  - cbn [mbind result_bind fst snd]. rewrite unconsumed_none; [by rewrite app_nil_r|].
    intros k v. rewrite consume_lookup. case_decide as Hk; [congruence|].
    destruct (decide (k = Ident b)) as [->|Hne].
    { rewrite lookup_insert_eq. congruence. }
    rewrite lookup_insert_ne by done.
    rewrite consume_lookup. case_decide as Hk'; [congruence|].
    intros Hl. apply buildAgg_lookup_is_Some in Hl as (s & -> & Hin & <-).
    exfalso. apply elem_of_app in Hin as [Hin|Hin].
    + apply Hk'. by apply list_elem_of_fmap_2.
    + apply elem_of_cons in Hin as [->|Hin]; [congruence|].
      apply Hk. by apply list_elem_of_fmap_2.
  - intros s Hs. apply Hcmp, elem_of_app. by right.
  - rewrite Hab, fmap_app. intros Hin. apply elem_of_app in Hin as [?|?]; done.
Qed.

(** One entry replaced by another whose Ident the source does not have:
    the new entry is extra and the old one is missing. *)
Lemma compareSymbolListWith_renamed pre m m' post cmpLabel :
  NoDup (Ident <$> pre ++ m :: post) ->
  Ident m' ∉ Ident <$> pre ++ m :: post ->
  (forall s, s ∈ pre ++ post -> cmp s s cmpLabel = Ok []) ->
  compareSymbolListWith rt cmp (pre ++ m :: post) (pre ++ m' :: post) cmpLabel
  = Ok [extra m'; missing m].
Proof.
  intros Hnd Hfresh Hcmp.
  destruct (NoDup_idents_focus _ _ _ Hnd) as (Hpre & Hpost & Hapre & Hapost & Hdisj).
  set (agg0 := buildAgg (pre ++ m :: post)).
  assert (Hpost_lookup : forall s, s ∈ post ->
    consume pre agg0 !! Ident s = Some (Some s)).
  { intros s Hs. rewrite consume_lookup, decide_False.
    - apply buildAgg_lookup_Some; [done|]. apply elem_of_app. right. by right.
    - intros Hin. apply (Hdisj _ Hin). by apply list_elem_of_fmap_2. }
  rewrite compareSymbolListWith_spec, targetLoop_app, targetLoop_prefix; [|done|].
  2:{ intros s Hs. apply Hcmp, elem_of_app. by left. }
  cbn [mbind result_bind fst snd targetLoop]. fold agg0.
  rewrite consume_lookup, decide_False.
  2:{ intros Hin. apply Hfresh. rewrite fmap_app. apply elem_of_app. by left. }
  unfold agg0 at 1. rewrite buildAgg_lookup_None by done. fold agg0.
  rewrite targetLoop_matched; [|done|done|].
  2:{ intros s Hs. apply Hcmp, elem_of_app. by right. }
  cbn [mbind result_bind fst snd].
  rewrite (unconsumed_one rt _ (Ident m) m); [done| |].
  - rewrite !consume_lookup, !decide_False by done.
    apply buildAgg_lookup_Some; [done|]. apply elem_of_app. right. by left.
  - intros k v Hne. rewrite consume_lookup. case_decide as Hk; [congruence|].
    rewrite consume_lookup. case_decide as Hk'; [congruence|].
    intros Hl. apply buildAgg_lookup_is_Some in Hl as (s & -> & Hin & <-).
    exfalso. apply elem_of_app in Hin as [Hin|Hin].
    + apply Hk'. by apply list_elem_of_fmap_2.
    + apply elem_of_cons in Hin as [->|Hin]; [done|].
      apply Hk. by apply list_elem_of_fmap_2.
Qed.

End ListComparison.

(** ** Well-formed symbols compare equal to themselves *)

Lemma uniqueIdents_NoDup l : uniqueIdents l = true -> NoDup (Ident <$> l).
Proof. unfold uniqueIdents. apply bool_decide_eq_true_1. Qed.

Lemma forallb_elem_of {A} (f : A -> bool) l x :
  forallb f l = true -> x ∈ l -> f x = true.
Proof. rewrite forallb_forall. intros H Hx. apply H. by apply list_elem_of_In. Qed.

Lemma wellFormed_unfold s :
  wellFormed s =
    uniqueIdents (Members s) && forallb wellFormed (Members s)
    && (if String.eqb (SymbolType s) "func"
        then match FuncSpecPtr s with
             | Some fs =>
                 uniqueIdents (Params fs) && forallb wellFormed (Params fs)
                 && uniqueIdents (Returns fs) && forallb wellFormed (Returns fs)
             | None => false
             end
        else true).
Proof. destruct s; reflexivity. Qed.

Lemma wellFormedTree_spec l :
  wellFormedTree l = true ->
  NoDup (Ident <$> l) /\ forall s, s ∈ l -> wellFormed s = true.
Proof.
  unfold wellFormedTree. intros [Hu Hall]%andb_prop. split.
  - by apply uniqueIdents_NoDup.
  - intros s Hs. by apply (forallb_elem_of _ l).
Qed.

Section Reflexivity.
Variable rt : MapRange.

Lemma compareSymbolList_same_from l cmpLabel :
  uniqueIdents l = true -> forallb wellFormed l = true ->
  Forall (fun s => wellFormed s = true ->
            forall cmpLabel, compareSymbol rt s s cmpLabel = Ok []) l ->
  compareSymbolList rt l l cmpLabel = Ok [].
Proof.
  intros Hu Hwf IH. apply compareSymbolListWith_same.
  - by apply uniqueIdents_NoDup.
  - intros s Hs. rewrite Forall_forall in IH. apply IH; [done|].
    by apply (forallb_elem_of _ l).
Qed.

Lemma compareSymbol_same s :
  wellFormed s = true -> forall cmpLabel, compareSymbol rt s s cmpLabel = Ok [].
Proof.
  induction s as [s IHm IHf] using Symbol_nested_ind.
  rewrite wellFormed_unfold. intros [[Hu Hall]%andb_prop Hfunc]%andb_prop cmpLabel.
  rewrite compareSymbol_unfold. cbn zeta.
  rewrite !String.eqb_refl, !andb_false_r. cbn [negb andb app].
  rewrite (compareSymbolList_same_from (Members s) true Hu Hall IHm).
  cbn [mbind result_bind app].
  destruct (String.eqb (SymbolType s) "func"); [|done].
  destruct (FuncSpecPtr s) as [fs|] eqn:Efs; [|done].
  destruct (IHf fs eq_refl) as [IHp IHr].
  apply andb_prop in Hfunc as [[[Hup Hp]%andb_prop Hur]%andb_prop Hr].
  unfold compareFuncSpec, compareFuncSpecWith.
  fold (compareSymbolList rt).
  rewrite (compareSymbolList_same_from (Params fs) false Hup Hp IHp).
  by rewrite (compareSymbolList_same_from (Returns fs) false Hur Hr IHr).
Qed.

Lemma compareSymbolList_same l cmpLabel :
  wellFormedTree l = true -> compareSymbolList rt l l cmpLabel = Ok [].
Proof.
  intros [Hu Hall]%andb_prop. apply compareSymbolList_same_from; [done..|].
  apply Forall_forall. intros s _ Hs c. by apply compareSymbol_same.
Qed.
End Reflexivity.

(** ** The order of the range only permutes the diagnostics *)

Section Order.
Variables rt1 rt2 : MapRange.

Lemma targetLoop_order cmp1 cmp2 cmpLabel target agg d1 d2 :
  Forall (fun s => forall a c, sameUpToOrder (cmp1 a s c) (cmp2 a s c)) target ->
  Permutation d1 d2 ->
  sameLoopState (targetLoop cmp1 cmpLabel target agg d1)
                (targetLoop cmp2 cmpLabel target agg d2).
Proof.
  intros Hcmp. revert agg d1 d2.
  induction Hcmp as [|x rest Hx _ IH]; intros agg d1 d2 Hd; simpl; [done|].
  destruct (agg !! Ident x) as [[orig|]|]; [|done|].
  - specialize (Hx orig cmpLabel).
    destruct (cmp1 orig x cmpLabel) as [ds1|p1], (cmp2 orig x cmpLabel) as [ds2|p2];
      simpl in *; try done.
    apply IH. by apply Permutation_app.
  - apply IH. by apply Permutation_app.
Qed.

Lemma compareSymbolListWith_order cmp1 cmp2 source target cmpLabel :
  Forall (fun s => forall a c, sameUpToOrder (cmp1 a s c) (cmp2 a s c)) target ->
  sameUpToOrder (compareSymbolListWith rt1 cmp1 source target cmpLabel)
                (compareSymbolListWith rt2 cmp2 source target cmpLabel).
Proof.
  intros Hcmp. rewrite !compareSymbolListWith_spec.
  pose proof (targetLoop_order cmp1 cmp2 cmpLabel target (buildAgg source) [] []
                Hcmp (Permutation_refl _)) as H.
  destruct (targetLoop cmp1 cmpLabel target (buildAgg source) []) as [[agg1 d1]|p1],
           (targetLoop cmp2 cmpLabel target (buildAgg source) []) as [[agg2 d2]|p2];
    simpl in *; try done.
  destruct H as [-> Hd]. apply Permutation_app; [done|].
  apply fmap_Permutation, unconsumed_Permutation.
  by rewrite !range_perm.
Qed.

Lemma compareFuncSpecWith_order cmp1 cmp2 a b :
  Forall (fun s => forall a c, sameUpToOrder (cmp1 a s c) (cmp2 a s c)) (Params b) ->
  Forall (fun s => forall a c, sameUpToOrder (cmp1 a s c) (cmp2 a s c)) (Returns b) ->
  sameUpToOrder (compareFuncSpecWith rt1 cmp1 a b) (compareFuncSpecWith rt2 cmp2 a b).
Proof.
  intros Hp Hr. unfold compareFuncSpecWith.
  pose proof (compareSymbolListWith_order cmp1 cmp2 (Params a) (Params b) false Hp) as H1.
  pose proof (compareSymbolListWith_order cmp1 cmp2 (Returns a) (Returns b) false Hr) as H2.
  destruct (compareSymbolListWith rt1 cmp1 (Params a) (Params b) false),
           (compareSymbolListWith rt2 cmp2 (Params a) (Params b) false);
    simpl in *; try done.
  destruct (compareSymbolListWith rt1 cmp1 (Returns a) (Returns b) false),
           (compareSymbolListWith rt2 cmp2 (Returns a) (Returns b) false);
    simpl in *; try done.
  apply Permutation_app; by apply fmap_Permutation.
Qed.

Lemma compareSymbol_order b :
  forall a cmpLabel,
    sameUpToOrder (compareSymbol rt1 a b cmpLabel) (compareSymbol rt2 a b cmpLabel).
Proof.
  induction b as [b IHm IHf] using Symbol_nested_ind. intros a cmpLabel.
  rewrite !compareSymbol_unfold. cbn zeta.
  pose proof (compareSymbolListWith_order _ _ (Members a) (Members b) true IHm) as Hm.
  fold (compareSymbolList rt1) (compareSymbolList rt2) in Hm.
  destruct (compareSymbolList rt1 (Members a) (Members b) true) as [ms1|p1],
           (compareSymbolList rt2 (Members a) (Members b) true) as [ms2|p2];
    simpl in *; try done.
  destruct (String.eqb (SymbolType a) "func").
  - destruct (FuncSpecPtr a) as [fa|]; [|done].
    destruct (FuncSpecPtr b) as [fb|] eqn:Efb; [|done].
    destruct (IHf fb eq_refl) as [IHp IHr].
    pose proof (compareFuncSpecWith_order _ _ fa fb IHp IHr) as Hf.
    fold (compareFuncSpec rt1) (compareFuncSpec rt2) in Hf.
    destruct (compareFuncSpec rt1 fa fb), (compareFuncSpec rt2 fa fb);
      simpl in *; try done.
    by repeat apply Permutation_app.
  - by repeat apply Permutation_app.
Qed.

Lemma compareSymbolList_order source target cmpLabel :
  sameUpToOrder (compareSymbolList rt1 source target cmpLabel)
                (compareSymbolList rt2 source target cmpLabel).
Proof.
  apply compareSymbolListWith_order, Forall_forall.
  intros s _. apply compareSymbol_order.
Qed.
End Order.

(** An outcome with at most one diagnostic, or a panic, is the outcome under
    every order of the range. *)
Lemma compareSymbolList_any_order rt source target cmpLabel r :
  compareSymbolList rangeAsc source target cmpLabel = r ->
  match r with Ok l => length l <= 1 | Panic _ => True end ->
  compareSymbolList rt source target cmpLabel = r.
Proof.
  intros <- Hr.
  pose proof (compareSymbolList_order rt rangeAsc source target cmpLabel) as H.
  destruct (compareSymbolList rt source target cmpLabel) as [l|p],
           (compareSymbolList rangeAsc source target cmpLabel) as [l'|p'];
    simpl in *; try done; [|by subst].
  f_equal. by apply Permutation_length_le_1.
Qed.

(** ** The comparator on the snapshots of the specification *)

Lemma compareFuncSpec_same rt fs :
  wellFormedTree (Params fs) = true -> wellFormedTree (Returns fs) = true ->
  compareFuncSpec rt fs fs = Ok [].
Proof.
  intros Hp Hr. unfold compareFuncSpec, compareFuncSpecWith.
  fold (compareSymbolList rt).
  by rewrite !compareSymbolList_same.
Qed.

Lemma Ident_setLabel_ne m label :
  label <> Label m -> Ident (setLabel m label) <> Ident m.
Proof.
  unfold Ident. simpl. intros Hne E. apply Hne.
  induction (ReceiverType m) as [|c r IH]; simpl in E.
  - by injection E.
  - injection E as E. by apply IH.
Qed.

Lemma wellFormedTree_focus pre s post :
  wellFormedTree (pre ++ s :: post) = true ->
  NoDup (Ident <$> pre ++ s :: post) /\ wellFormed s = true
  /\ forall x, x ∈ pre ++ post -> wellFormed x = true.
Proof.
  intros [Hnd Hall]%wellFormedTree_spec. split_and!; [done| |].
  - apply Hall, elem_of_app. right. by left.
  - intros x [Hx|Hx]%elem_of_app; apply Hall, elem_of_app; [by left|right; by right].
Qed.

(** A member relabelled at any depth of the nesting: its new Ident is
    extra and its old one is missing, and nothing else is reported. *)
Lemma compareSymbolList_renamedIn rt m m' l l' :
  renamedIn m m' l l' ->
  Ident m' <> Ident m ->
  wellFormedTree l = true -> wellFormedTree l' = true ->
  forall cmpLabel,
    compareSymbolList rt l l' cmpLabel = Ok [extra m'; missing m].
Proof.
  intros Hren Hne. induction Hren as [pre post|pre s members' post Hren IH];
    intros Hwf Hwf' cmpLabel.
  - apply wellFormedTree_focus in Hwf as (Hnd & _ & Hall).
    apply wellFormedTree_focus in Hwf' as (Hnd' & _ & _).
    apply NoDup_idents_focus in Hnd' as (_ & _ & Hpre & Hpost & _).
    apply compareSymbolListWith_renamed; [done| |].
    + rewrite fmap_app, fmap_cons. intros [?|[?|?]%elem_of_cons]%elem_of_app; done.
    + intros x Hx. by apply compareSymbol_same, Hall.
  - apply wellFormedTree_focus in Hwf as (Hnd & Hs & Hall).
    apply wellFormedTree_focus in Hwf' as (_ & Hs' & _).
    unfold compareSymbolList.
    rewrite compareSymbolListWith_replaced; [|done|done|].
    2:{ intros x Hx. by apply compareSymbol_same, Hall. }
    rewrite wellFormed_unfold in Hs, Hs'. simpl in Hs'.
    apply andb_prop in Hs as [Hm Hf]. apply andb_prop in Hs' as [Hm' _].
    rewrite compareSymbol_unfold. cbn zeta. simpl.
    rewrite !String.eqb_refl, !andb_false_r. cbn [negb andb app].
    rewrite (IH Hm Hm' true). cbn [mbind result_bind app].
    destruct (String.eqb (SymbolType s) "func"); [|done].
    destruct (FuncSpecPtr s) as [fs|]; [|done].
    apply andb_prop in Hf as [[[Hup Hp]%andb_prop Hur]%andb_prop Hr].
    rewrite compareFuncSpec_same; [done| |]; unfold wellFormedTree;
      by apply andb_true_intro.
Qed.

(** ** A repeated Ident in the target *)

Section RepeatedIdent.
Variable rt : MapRange.
Variable cmp : Symbol -> Symbol -> bool -> result (list string).

(** The second loop never removes a key from the lookup. *)
Lemma targetLoop_keeps_keys cmpLabel target agg diffs agg' diffs' k :
  targetLoop cmp cmpLabel target agg diffs = Ok (agg', diffs') ->
  is_Some (agg !! k) -> is_Some (agg' !! k).
Proof.
  revert agg diffs. induction target as [|z rest IH]; intros agg diffs; simpl.
  - intros [= <- <-]. done.
  - destruct (agg !! Ident z) as [[orig|]|] eqn:Ez; [|done|by apply IH].
    destruct (cmp orig z cmpLabel); [|done]. simpl. intros Hloop Hk.
    apply (IH _ _ Hloop). rewrite lookup_insert. by case_decide.
Qed.

(** Once an entry is consumed, a later target entry of the same Ident
    dereferences nil, unless the loop has panicked before. *)
Lemma targetLoop_consumed_panics cmpLabel target agg diffs y :
  agg !! Ident y = Some None -> y ∈ target ->
  exists p, targetLoop cmp cmpLabel target agg diffs = Panic p.
Proof.
  intros Hk Hy. revert agg diffs Hk.
  induction target as [|z rest IH]; intros agg diffs Hk.
  - by apply elem_of_nil in Hy.
  - simpl. apply elem_of_cons in Hy as [<-|Hy].
    { rewrite Hk. by eexists. }
    destruct (agg !! Ident z) as [[orig|]|] eqn:Ez; [|by eexists|by apply IH].
    destruct (cmp orig z cmpLabel); [|by eexists]. simpl.
    apply IH; [done|]. rewrite lookup_insert. by case_decide.
Qed.

(** Two target entries with one Ident that the source has: the comparison
    panics. *)
Lemma compareSymbolListWith_repeated_ident source pre x rest y cmpLabel :
  Ident x ∈ Ident <$> source ->
  y ∈ rest -> Ident y = Ident x ->
  exists p, compareSymbolListWith rt cmp source (pre ++ x :: rest) cmpLabel = Panic p.
Proof.
  intros Hsrc Hy Hxy. rewrite compareSymbolListWith_spec, targetLoop_app.
  pose proof (buildAgg_lookup_is_key source _ Hsrc) as Hk.
  destruct (targetLoop cmp cmpLabel pre (buildAgg source) []) as [[agg diffs]|p] eqn:Epre;
    [|by eexists].
  destruct (targetLoop_keeps_keys _ _ _ _ _ _ (Ident x) Epre Hk) as [v Hv].
  cbn [mbind result_bind fst snd targetLoop]. rewrite Hv.
  destruct v as [orig|]; [|by eexists].
  destruct (cmp orig x cmpLabel) as [ds|p]; [|by eexists].
  cbn [mbind result_bind].
  destruct (targetLoop_consumed_panics cmpLabel rest
              (<[Ident x := None]> agg) (diffs ++ ds) y) as [p Hp]; [|done|].
  - by rewrite Hxy, lookup_insert_eq.
  - rewrite Hp. by eexists.
Qed.

End RepeatedIdent.


(** ** The claims about the comparator *)

(** C1: reflexivity of the comparison, also for a function with two
    unlabeled parameters.  The code does not return there: both parameters
    of [func Foo(a string, b int)] have the Ident ["."], the first one
    consumes the entry of the lookup by setting it to nil, and the second
    one finds the key again and dereferences nil. *)
Theorem compare_self_two_parameters rt :
  compareSymbolList rt twoParameters twoParameters true = Panic NilDereference.
Proof. by apply compareSymbolList_any_order. Qed.

(** C2: the comparison always completes.  The code panics when a
    function of the reference is matched with a symbol of another kind, whose
    funcSpec is nil, and when the target lists an Ident twice. *)
Theorem compare_panics rt :
  compareSymbolList rt funcFoo varFoo true = Panic NilDereference
  /\ compareSymbolList rt [varSymbol "A"] repeatedVar true = Panic NilDereference.
Proof. split; by apply compareSymbolList_any_order. Qed.

(** C3, as the code has it: members are matched by Ident, which
    contains the label, so a member relabelled at any depth below a top-level
    symbol is reported as one extra symbol and one missing symbol, and its
    siblings are not reported. *)
Theorem member_rename_extra_and_missing rt pre s members' post m label :
  renamedIn m (setLabel m label) (Members s) members' ->
  label <> Label m ->
  wellFormedTree (pre ++ s :: post) = true ->
  wellFormedTree (pre ++ setMembers s members' :: post) = true ->
  compareSymbolList rt (pre ++ s :: post) (pre ++ setMembers s members' :: post) true
  = Ok ["extra symbol found: " +:+ String (setLabel m label);
        "missing symbol: " +:+ String m].
Proof.
  intros Hren Hne Hwf Hwf'.
  apply (compareSymbolList_renamedIn rt m (setLabel m label)); [|by apply Ident_setLabel_ne|done..].
  by apply renamed_below.
Qed.

Lemma member_rename_extra_and_missing_witness :
  renamedIn (memberSymbol "B") (setLabel (memberSymbol "B") "C")
            (Members (structSymbol "S" [memberSymbol "A"; memberSymbol "B"]))
            [memberSymbol "A"; memberSymbol "C"]
  /\ "C" <> Label (memberSymbol "B")
  /\ wellFormedTree (structOf "B") = true
  /\ wellFormedTree (structOf "C") = true
  /\ compareSymbolList rangeDesc (structOf "B") (structOf "C") true
     = Ok ["extra symbol found: .C"; "missing symbol: .B"].
Proof.
  assert (Hren : renamedIn (memberSymbol "B") (setLabel (memberSymbol "B") "C")
            (Members (structSymbol "S" [memberSymbol "A"; memberSymbol "B"]))
            [memberSymbol "A"; memberSymbol "C"]).
  { exact (renamed_here _ _ [memberSymbol "A"] []). }
  assert (Hne : "C" <> Label (memberSymbol "B")) by discriminate.
  split; [exact Hren|]. split; [exact Hne|].
  split; [reflexivity|]. split; [reflexivity|].
  exact (member_rename_extra_and_missing rangeDesc []
           (structSymbol "S" [memberSymbol "A"; memberSymbol "B"])
           [memberSymbol "A"; memberSymbol "C"] [] (memberSymbol "B") "C"
           Hren Hne eq_refl eq_refl).
Defined.

(** C3 as stated fails: the rename of the field [B] of a struct to [C]
    does not produce a single diagnostic about different labels. *)
Lemma member_rename_no_label_diagnostic :
  ~ exists d, compareSymbolList rangeAsc (structOf "B") (structOf "C") true = Ok [d]
              /\ Contains d "have different labels" = true.
Proof. intros (d & E & _). vm_compute in E. discriminate E. Qed.

(** C4: the signatures of a matched pair of kind func or method are
    compared.  The code compares them for kind func only: a changed
    parameter type of an interface method, or of a method with a receiver, is
    not reported. *)
Theorem method_signature_change_unreported rt :
  compareSymbolList rt (interfaceOf "string") (interfaceOf "int") true = Ok []
  /\ compareSymbolList rt (methodOf "string") (methodOf "int") true = Ok [].
Proof. split; apply compareSymbolList_any_order; try reflexivity; simpl; lia. Qed.

(** C5, as the code has it: the third loop ranges over a Go map, so
    two runs on the same input agree on whether and how the comparison
    panics and on the diagnostics up to their order. *)
Theorem compare_deterministic_up_to_order rt1 rt2 source target cmpLabel :
  sameUpToOrder (compareSymbolList rt1 source target cmpLabel)
                (compareSymbolList rt2 source target cmpLabel).
Proof. apply compareSymbolList_order. Qed.

(** C5 as stated fails: two orders of the range over the lookup report
    two missing symbols in two orders. *)
Lemma missing_order_depends_on_range :
  compareSymbolList rangeAsc twoVars [] true
  <> compareSymbolList rangeDesc twoVars [] true.
Proof. vm_compute. discriminate. Qed.

(** C6: the concrete case of the changed parameter type. *)
Theorem func_param_type_change rt :
  let d := "func param mismatch: type alias . and . have different underlying types: string and int" in
  compareSymbolList rt (fooOf "string") (fooOf "int") true = Ok [d]
  /\ Contains d "func param mismatch:" = true
  /\ Contains d "string" = true
  /\ Contains d "int" = true
  /\ Contains d "have different labels" = false.
Proof.
  split; [|by vm_compute].
  apply compareSymbolList_any_order; [by vm_compute|simpl; lia].
Qed.




(** ** The extractor *)

Section AppendLoops.
Context {A B : Type}.

(** The loop stops at the first iteration that panics. *)
Lemma appendEach_first_panic (body : A -> result B) pre x post acc p :
  forallb (fun y => isOk (body y)) pre = true ->
  body x = Panic p ->
  appendEach body (pre ++ x :: post) acc = Panic p.
Proof.
  revert acc. induction pre as [|y pre IH]; intros acc Hpre Hx; simpl.
  - by rewrite Hx.
  - simpl in Hpre. apply andb_prop in Hpre as [Hy Hpre].
    destruct (body y); [|done]. simpl. by apply IH.
Qed.

(** When every iteration that panics does so in the same way, that is how
    the loop panics. *)
Lemma appendEach_panic_kind (body : A -> result B) pre x post acc p :
  (forall y q, body y = Panic q -> q = p) ->
  body x = Panic p ->
  appendEach body (pre ++ x :: post) acc = Panic p.
Proof.
  intros Hkind Hx. revert acc. induction pre as [|y pre IH]; intros acc; simpl.
  - by rewrite Hx.
  - destruct (body y) as [v|q] eqn:Ey; simpl; [apply IH|].
    by rewrite (Hkind y q Ey).
Qed.

Lemma appendAll_panic (bodies : A -> result (list B)) l x acc p :
  x ∈ l -> bodies x = Panic p -> exists q, appendAll bodies l acc = Panic q.
Proof.
  intros Hx Hp. revert acc. induction l as [|y l IH]; intros acc.
  - by apply elem_of_nil in Hx.
  - simpl. apply elem_of_cons in Hx as [<-|Hx].
    + rewrite Hp. by eexists.
    + destruct (bodies y) as [ys|q]; simpl; [by apply IH|by eexists].
Qed.
End AppendLoops.

Lemma formatType_unfold Sprint spec basePos :
  formatType Sprint spec basePos =
    let Name := ast.SpecName spec in
    match ast.SpecType spec with
    | ast.InterfaceType methods =>
        members ← appendEach (interfaceMember Sprint) methods [];
        withPos Name basePos
          (mkSymbol (specLabel Name) "interface" "" "" "" 0 members None)
    | ast.StructType fields =>
        members ← appendEach structMember fields [];
        withPos Name basePos
          (mkSymbol (specLabel Name) "struct" "" "" "" 0 members None)
    | ast.IdentExpr specType =>
        withPos Name basePos
          (mkSymbol (specLabel Name) "type" (ast.Name specType) "" "" 0 [] None)
    | ast.ArrayType _ Elt =>
        withPos Name basePos
          (mkSymbol ("[]" +:+ Sprint Elt) "array" "" "" "" 0 [] None)
    | _ => Panic UnknownType
    end.
Proof. unfold formatType. by destruct (ast.SpecType spec). Qed.

Lemma embedded_member_panics Sprint f :
  embedded f = true -> isIdentExpr (ast.Typ f) = false ->
  structMember f = Panic TypeAssertion
  /\ interfaceMember Sprint f = Panic TypeAssertion.
Proof.
  unfold embedded, structMember, interfaceMember, interfaceMemberWith.
  destruct (ast.Names f); [|done]. by destruct (ast.Typ f).
Qed.

Lemma structMember_panic_kind f q : structMember f = Panic q -> q = TypeAssertion.
Proof.
  unfold structMember. destruct (ast.Names f); [|done].
  destruct (ast.Typ f); intros E; by inversion E.
Qed.

(** C8: a declared type of any other shape fails classification with
    the panic ["unknown type"], and a run that meets it as the type of an
    exported type declaration aborts without a symbol tree. *)
Theorem unsupported_shape_aborts IsExported Sprint rt Files fileName file Specs
    spec Name basePos :
  supportedShape (ast.SpecType spec) = false ->
  formatType Sprint spec basePos = Panic UnknownType
  /\ (Files !! fileName = Some file ->
      ast.GenDecl Specs ∈ ast.Decls file ->
      ast.TypeSpecOf spec ∈ Specs ->
      ast.SpecName spec = Some Name ->
      IsExported (ast.Name Name) = true ->
      exists p, mainExports IsExported Sprint rt Files = Panic p).
Proof.
  intros Hshape.
  assert (Hfmt : forall basePos, formatType Sprint spec basePos = Panic UnknownType).
  { intros bp. rewrite formatType_unfold. by destruct (ast.SpecType spec). }
  split; [apply Hfmt|]. intros Hfile Hdecl Hspec HName Hexp.
  assert (Hs : specExports IsExported Sprint fileName file (ast.TypeSpecOf spec)
               = Panic UnknownType).
  { unfold specExports. rewrite HName, Hexp. simpl. by rewrite Hfmt. }
  destruct (appendAll_panic _ _ _ [] _ Hspec Hs) as [q Hq].
  assert (Hd : declExports IsExported Sprint fileName file (ast.GenDecl Specs) = Panic q)
    by done.
  destruct (appendAll_panic _ _ _ [] _ Hdecl Hd) as [q' Hq'].
  unfold mainExports.
  apply (appendAll_panic _ _ (fileName, file) [] q'); [|done].
  rewrite (range_perm rt). by apply elem_of_map_to_list.
Qed.

Lemma unsupported_shape_aborts_witness :
  supportedShape (ast.SpecType funcTypeSpec) = false
  /\ formatType SprintName funcTypeSpec 1 = Panic UnknownType
  /\ exists p, mainExports IsExportedASCII SprintName rangeAsc funcTypePackage = Panic p.
Proof.
  assert (Hshape : supportedShape (ast.SpecType funcTypeSpec) = false) by reflexivity.
  destruct (unsupported_shape_aborts IsExportedASCII SprintName rangeAsc funcTypePackage
              "a.go" funcTypeFile [ast.TypeSpecOf funcTypeSpec] funcTypeSpec
              (ast.mkIdent 19 "F") 1 Hshape) as [Hfmt Hrun].
  split; [exact Hshape|]. split; [exact Hfmt|].
  apply Hrun.
  - reflexivity.
  - left.
  - left.
  - reflexivity.
  - reflexivity.
Defined.



(** The signature is classified like a declared type: a method with a
    pointer parameter ends the run where [funcSpec] is called. *)
Example method_with_pointer_parameter :
  declExports IsExportedASCII SprintName "a.go" (ast.mkFile 1 []) (ast.FuncDeclOf putDecl)
  = Panic UnknownType.
Proof. reflexivity. Qed.

(** C10, as the code has it: an embedded member whose type is not an
    identifier fails the type assertion, and so does the classification of a
    struct that contains one, and of an interface in which every member
    declared before it classifies; an embedded identifier becomes a symbol
    of kind embed. *)
Theorem embedded_non_identifier_aborts Sprint spec basePos pre f post :
  embedded f = true ->
  isIdentExpr (ast.Typ f) = false ->
  ast.SpecType spec = ast.StructType (pre ++ f :: post)
  \/ (ast.SpecType spec = ast.InterfaceType (pre ++ f :: post)
      /\ forallb (fun m => isOk (interfaceMember Sprint m)) pre = true) ->
  formatType Sprint spec basePos = Panic TypeAssertion
  /\ forall id,
       structMember (ast.mkField [] (ast.IdentExpr id))
       = Ok (mkSymbol (ast.Name id) "embed" "" "" "" 0 [] None)
       /\ interfaceMember Sprint (ast.mkField [] (ast.IdentExpr id))
          = Ok (mkSymbol (ast.Name id) "embed" "" "" "" 0 [] None).
Proof.
  intros Hemb Hty Hspec. split; [|done].
  destruct (embedded_member_panics Sprint f Hemb Hty) as [Hs Hi].
  rewrite formatType_unfold. cbn zeta.
  destruct Hspec as [->|[-> Hpre]].
  - rewrite (appendEach_panic_kind structMember pre f post [] TypeAssertion); [done| |done].
    apply structMember_panic_kind.
  - by rewrite (appendEach_first_panic (interfaceMember Sprint) pre f post [] TypeAssertion).
Qed.

Lemma embedded_non_identifier_aborts_witness :
  embedded qualifiedEmbed = true
  /\ isIdentExpr (ast.Typ qualifiedEmbed) = false
  /\ formatType SprintName structWithQualifiedEmbed 1 = Panic TypeAssertion
  /\ formatType SprintName interfaceWithQualifiedEmbed 1 = Panic TypeAssertion.
Proof.
  split; [reflexivity|]. split; [reflexivity|]. split.
  - exact (proj1 (embedded_non_identifier_aborts SprintName structWithQualifiedEmbed 1
                    [ast.mkField [ident "A"] (named "int")] qualifiedEmbed []
                    eq_refl eq_refl (or_introl eq_refl))).
  - exact (proj1 (embedded_non_identifier_aborts SprintName interfaceWithQualifiedEmbed 1
                    [methodOfString] qualifiedEmbed []
                    eq_refl eq_refl (or_intror (conj eq_refl eq_refl)))).
Defined.

(** C10 as stated fails: an interface whose first method has a pointer
    parameter aborts with ["unknown type"] before its embedded [pkg.Iface]
    is reached. *)
Lemma interface_aborts_before_embed :
  embedded qualifiedEmbed = true
  /\ isIdentExpr (ast.Typ qualifiedEmbed) = false
  /\ formatType SprintName interfaceWithPointerMethod 1 = Panic UnknownType.
Proof. by vm_compute. Qed.

(** * Further properties *)

(** ** The comparator on snapshots of distinct Idents *)

(** A snapshot whose lists have pairwise different Idents and whose
    functions carry a funcSpec is compatible with itself, whatever
    [cmpLabel] and the order of the range. *)
Theorem compare_well_formed_with_itself rt l cmpLabel :
  wellFormedTree l = true -> compareSymbolList rt l l cmpLabel = Ok [].
Proof. apply compareSymbolList_same. Qed.

Lemma compare_well_formed_with_itself_witness :
  wellFormedTree smallTree = true
  /\ compareSymbolList rangeDesc smallTree smallTree true = Ok [].
Proof.
  split; [reflexivity|].
  exact (compare_well_formed_with_itself rangeDesc smallTree true eq_refl).
Defined.







Lemma compareSymbolList_removed rt pre x post target cmpLabel :
  wellFormedTree (pre ++ x :: post) = true ->
  Permutation target (pre ++ post) ->
  compareSymbolList rt (pre ++ x :: post) target cmpLabel
  = Ok ["missing symbol: " +:+ String x].
Proof.
  intros (Hnd & _ & Hall)%wellFormedTree_focus Hperm.
  destruct (NoDup_idents_focus _ _ _ Hnd) as (Hpre & Hpost & Hxpre & Hxpost & Hdisj).
  assert (Hin : forall s, s ∈ target -> s ∈ pre ++ x :: post).
  { intros s. rewrite Hperm, !elem_of_app, elem_of_cons. tauto. }
  assert (Hx : Ident x ∉ Ident <$> target).
  { rewrite Hperm, fmap_app, elem_of_app. tauto. }
  unfold compareSymbolList. rewrite compareSymbolListWith_spec.
  rewrite targetLoop_matched.
  - cbn [mbind result_bind fst snd app].
    rewrite (unconsumed_one rt _ (Ident x) x); [done| |].
    + rewrite consume_lookup, decide_False by done.
      apply buildAgg_lookup_Some; [done|]. apply elem_of_app. right. by left.
    + intros k v Hne. rewrite consume_lookup. case_decide as Hk; [congruence|].
      intros Hl. apply buildAgg_lookup_is_Some in Hl as (s & -> & Hs & <-).
      exfalso. apply Hk. apply list_elem_of_fmap_2. rewrite Hperm.
      revert Hs. rewrite !elem_of_app, elem_of_cons. intros [?|[->|?]]; tauto.
  - rewrite Hperm, fmap_app. apply NoDup_app. split_and!; [done| |done].
    intros k Hk Hk'. by apply (Hdisj k).
  - intros s Hs. apply buildAgg_lookup_Some; [done|]. by apply Hin.
  - intros s Hs. apply compareSymbol_same, Hall. by rewrite <- Hperm.
Qed.

(** A symbol of the reference that the target lacks, everything else being
    the same up to the order of the target: the only diagnostic is
    ["missing symbol: <source symbol>"]. *)
Theorem removal_one_missing_symbol rt pre x post target cmpLabel :
  wellFormedTree (pre ++ x :: post) = true ->
  Permutation target (pre ++ post) ->
  compareSymbolList rt (pre ++ x :: post) target cmpLabel
  = Ok ["missing symbol: " +:+ String x].
Proof. apply compareSymbolList_removed. Qed.

Lemma removal_one_missing_symbol_witness :
  wellFormedTree ([varSymbol "A"] ++ funcSymbol "Foo" [] [] :: [varSymbol "B"]) = true
  /\ Permutation [varSymbol "B"; varSymbol "A"] ([varSymbol "A"] ++ [varSymbol "B"])
  /\ compareSymbolList rangeDesc twoVarsAndFoo [varSymbol "B"; varSymbol "A"] true
     = Ok ["missing symbol: .Foo"].
Proof.
  assert (Hperm : Permutation [varSymbol "B"; varSymbol "A"]
                              ([varSymbol "A"] ++ [varSymbol "B"])).
  { apply perm_swap. }
  split; [reflexivity|]. split; [exact Hperm|].
  exact (removal_one_missing_symbol rangeDesc [varSymbol "A"] (funcSymbol "Foo" [] [])
           [varSymbol "B"] [varSymbol "B"; varSymbol "A"] true eq_refl Hperm).
Defined.

(** ** Where the comparator panics, and what it does not look at *)

(** A target that lists twice an Ident the reference has cannot be
    compared: the second entry finds the lookup entry set to nil. *)
Theorem repeated_target_ident_panics rt source pre x rest y cmpLabel :
  Ident x ∈ Ident <$> source ->
  y ∈ rest -> Ident y = Ident x ->
  exists p, compareSymbolList rt source (pre ++ x :: rest) cmpLabel = Panic p.
Proof. apply compareSymbolListWith_repeated_ident. Qed.

Lemma repeated_target_ident_panics_witness :
  (Ident (varSymbol "A") ∈ Ident <$> twoVars)
  /\ (varSymbol "A" ∈ [varSymbol "B"; varSymbol "A"])
  /\ Ident (varSymbol "A") = Ident (varSymbol "A")
  /\ exists p, compareSymbolList rangeAsc twoVars
                 ([] ++ varSymbol "A" :: [varSymbol "B"; varSymbol "A"]) true = Panic p.
Proof.
  assert (Hin : Ident (varSymbol "A") ∈ Ident <$> twoVars) by left.
  assert (Hy : varSymbol "A" ∈ [varSymbol "B"; varSymbol "A"]) by (right; left).
  split; [exact Hin|]. split; [exact Hy|]. split; [reflexivity|].
  exact (repeated_target_ident_panics rangeAsc twoVars [] (varSymbol "A")
           [varSymbol "B"; varSymbol "A"] (varSymbol "A") true Hin Hy eq_refl).
Defined.

(** A function of the reference matched with a symbol without funcSpec,
    which is every symbol of another kind than func and method that the
    extractor makes: the comparison panics instead of reporting the change
    of kind. *)
Theorem func_against_missing_funcSpec_panics rt a b cmpLabel :
  SymbolType a = "func" -> FuncSpecPtr b = None ->
  exists p, compareSymbol rt a b cmpLabel = Panic p.
Proof.
  intros Hty Hfs. rewrite compareSymbol_unfold. cbn zeta.
  destruct (compareSymbolList rt (Members a) (Members b) true); [|by eexists].
  cbn [mbind result_bind]. rewrite Hty, Hfs. cbn [String.eqb Ascii.eqb Bool.eqb].
  destruct (FuncSpecPtr a); by eexists.
Qed.

Lemma func_against_missing_funcSpec_panics_witness :
  SymbolType (funcSymbol "Foo" [] []) = "func"
  /\ FuncSpecPtr (structSymbol "Foo" []) = None
  /\ exists p, compareSymbol rangeAsc (funcSymbol "Foo" [] []) (structSymbol "Foo" []) true
               = Panic p.
Proof.
  split; [reflexivity|]. split; [reflexivity|].
  exact (func_against_missing_funcSpec_panics rangeAsc (funcSymbol "Foo" [] [])
           (structSymbol "Foo" []) true eq_refl eq_refl).
Defined.

(** Unless the symbol of the reference has kind func, the funcSpec of
    neither side is looked at: the signatures of methods, of interfaces and
    of receivers alike, never change the outcome. *)
Theorem funcSpec_only_read_for_func rt a b cmpLabel fa fb :
  SymbolType a <> "func" ->
  compareSymbol rt (setFuncSpecPtr a fa) (setFuncSpecPtr b fb) cmpLabel
  = compareSymbol rt a b cmpLabel.
Proof.
  intros Hty. rewrite !compareSymbol_unfold. cbn zeta.
  assert (Hf : (SymbolType a =? "func") = false) by (apply String.eqb_neq; exact Hty).
  cbn [setFuncSpecPtr SymbolType Label UnderlyingType ReceiverType Members FuncSpecPtr].
  change (String (setFuncSpecPtr a fa)) with (String a).
  change (String (setFuncSpecPtr b fb)) with (String b).
  by rewrite Hf.
Qed.

Lemma funcSpec_only_read_for_func_witness :
  SymbolType (methodSymbol "T" "M" [] []) <> "func"
  /\ compareSymbol rangeAsc
       (setFuncSpecPtr (methodSymbol "T" "M" [] []) (Some (mkFuncSpec [typeSymbol "int"] [])))
       (setFuncSpecPtr (methodSymbol "T" "M" [] []) None) true
     = Ok [].
Proof.
  assert (Hty : SymbolType (methodSymbol "T" "M" [] []) <> "func") by discriminate.
  split; [exact Hty|].
  exact (eq_trans
           (funcSpec_only_read_for_func rangeAsc (methodSymbol "T" "M" [] [])
              (methodSymbol "T" "M" [] []) true
              (Some (mkFuncSpec [typeSymbol "int"] [])) None Hty)
           eq_refl).
Defined.

(** ** What an empty and what a disjoint comparison say *)

Section Verdict.
Variable rt : MapRange.
Variable cmp : Symbol -> Symbol -> bool -> result (list string).

(** Target entries whose Ident the lookup does not have are reported as
    extra, in the order of the target, and leave the lookup as it is. *)
Lemma targetLoop_unmatched cmpLabel target agg diffs :
  (forall s, s ∈ target -> agg !! Ident s = None) ->
  targetLoop cmp cmpLabel target agg diffs = Ok (agg, diffs ++ (extra <$> target)).
Proof.
  revert diffs. induction target as [|z rest IH]; intros diffs Hnone; simpl.
  - by rewrite app_nil_r.
  - rewrite (Hnone z) by left. rewrite IH.
    + by rewrite <- app_assoc.
    + intros s Hs. apply Hnone. by right.
Qed.

(** The second loop only appends; when it appends nothing, every target
    entry has found its Ident in the lookup and consumed it. *)
Lemma targetLoop_appends cmpLabel target agg diffs agg' diffs' :
  targetLoop cmp cmpLabel target agg diffs = Ok (agg', diffs') ->
  exists ds, diffs' = diffs ++ ds
    /\ (ds = [] ->
        (forall s, s ∈ target -> is_Some (agg !! Ident s))
        /\ agg' = consume target agg).
Proof.
  revert agg diffs. induction target as [|z rest IH]; intros agg diffs; simpl.
  - intros [= <- <-]. exists []. rewrite app_nil_r. split; [done|]. intros _.
    split; [|done]. intros s Hs. by apply elem_of_nil in Hs.
  - destruct (agg !! Ident z) as [[orig|]|] eqn:Ez; [|done|].
    + destruct (cmp orig z cmpLabel) as [dz|]; [|done]. simpl. intros Hloop.
      destruct (IH _ _ Hloop) as (ds & -> & Hnil).
      exists (dz ++ ds). rewrite app_assoc. split; [done|].
      intros [-> ->]%app_eq_nil. destruct (Hnil eq_refl) as [Hkeys ->].
      split; [|done]. intros s [->|Hs]%elem_of_cons; [by rewrite Ez|].
      specialize (Hkeys s Hs). rewrite lookup_insert in Hkeys.
      case_decide as E; [by rewrite <- E, Ez|done].
    + intros Hloop. destruct (IH _ _ Hloop) as (ds & -> & _).
      exists (extra z :: ds). rewrite <- app_assoc. split; [done|]. done.
Qed.

Lemma unconsumed_nil_inv (agg : gmap string (option Symbol)) k v :
  unconsumed (range rt agg) = [] -> agg !! k = Some v -> v = None.
Proof.
  intros Hnil Hk. destruct v as [s|]; [|done]. exfalso.
  assert (Hin : (k, Some s) ∈ range rt agg).
  { rewrite (range_perm rt). by apply elem_of_map_to_list. }
  assert (Hs : s ∈ unconsumed (range rt agg)).
  { unfold unconsumed. apply list_elem_of_omap. by exists (k, Some s). }
  rewrite Hnil in Hs. by apply elem_of_nil in Hs.
Qed.

Lemma compareSymbolListWith_empty_inv source target cmpLabel :
  compareSymbolListWith rt cmp source target cmpLabel = Ok [] ->
  forall k, k ∈ Ident <$> source <-> k ∈ Ident <$> target.
Proof.
  rewrite compareSymbolListWith_spec.
  destruct (targetLoop cmp cmpLabel target (buildAgg source) []) as [[agg diffs]|]
    eqn:Eloop; [|done].
  cbn [mbind result_bind fst snd]. intros [= [-> Hmiss]%app_eq_nil].
  apply fmap_nil_inv in Hmiss.
  destruct (targetLoop_appends _ _ _ _ _ _ Eloop) as (ds & Eds & Hnil).
  simpl in Eds. subst ds. destruct (Hnil eq_refl) as [Hkeys ->].
  intros k. split.
  - intros Hk. destruct (decide (k ∈ Ident <$> target)) as [|Hnin]; [done|].
    exfalso. destruct (buildAgg_lookup_is_key source k Hk) as [v Hv].
    assert (v = None) as ->.
    { apply (unconsumed_nil_inv _ k v Hmiss).
      by rewrite consume_lookup, decide_False. }
    by apply buildAgg_lookup_is_Some in Hv as (s & ? & _).
  - intros (s & -> & Hs)%list_elem_of_fmap.
    destruct (Hkeys s Hs) as [v Hv].
    apply buildAgg_lookup_is_Some in Hv as (s' & _ & Hs' & <-).
    by apply list_elem_of_fmap_2.
Qed.

(** Without a common Ident, every target symbol is extra, in the order of
    the target, and every source symbol is missing, in the order of the
    range. *)
Lemma compareSymbolListWith_disjoint source target cmpLabel :
  NoDup (Ident <$> source) ->
  (forall s, s ∈ target -> Ident s ∉ Ident <$> source) ->
  exists ms, Permutation ms source
    /\ compareSymbolListWith rt cmp source target cmpLabel
       = Ok ((extra <$> target) ++ (missing <$> ms)).
Proof.
  intros Hnd Hdisj. rewrite compareSymbolListWith_spec, targetLoop_unmatched.
  2:{ intros s Hs. apply buildAgg_lookup_None. by apply Hdisj. }
  cbn [mbind result_bind fst snd app].
  exists (unconsumed (range rt (buildAgg source))). split; [|done].
  rewrite (unconsumed_Permutation _ _ (range_perm rt _ _)).
  assert (E : buildAgg source
              = list_to_map ((fun s => (Ident s, Some s)) <$> source)).
  { apply map_eq. intros k. symmetry.
    destruct (buildAgg source !! k) as [v|] eqn:Ek.
    - apply buildAgg_lookup_is_Some in Ek as (s & -> & Hs & <-).
      apply elem_of_list_to_map; [by rewrite <- list_fmap_compose|].
      apply list_elem_of_fmap. by exists s.
    - apply not_elem_of_list_to_map. rewrite <- list_fmap_compose.
      intros Hk. destruct (buildAgg_lookup_is_key source k Hk) as [v Hv]. congruence. }
  rewrite E.
  assert (Hfst : NoDup ((fun s => (Ident s, Some s)) <$> source).*1)
    by by rewrite <- list_fmap_compose.
  rewrite (unconsumed_Permutation _ _ (map_to_list_to_map _ Hfst)).
  unfold unconsumed. clear. induction source as [|s source IH]; [done|].
  simpl. by constructor.
Qed.
End Verdict.

(** An empty diagnostic list means that the two snapshots list the same
    Idents. *)
Theorem compatible_same_idents rt source target cmpLabel :
  compareSymbolList rt source target cmpLabel = Ok [] ->
  forall k, k ∈ Ident <$> source <-> k ∈ Ident <$> target.
Proof. apply compareSymbolListWith_empty_inv. Qed.

Lemma compatible_same_idents_witness :
  compareSymbolList rangeAsc twoVars (reverse twoVars) true = Ok []
  /\ forall k, k ∈ Ident <$> twoVars <-> k ∈ Ident <$> reverse twoVars.
Proof.
  split; [reflexivity|].
  exact (compatible_same_idents rangeAsc twoVars (reverse twoVars) true eq_refl).
Defined.

(** Two snapshots without a common Ident, the reference without a repeated
    one: the diagnostics are one ["extra symbol found"] per target symbol,
    in the order of the target, followed by one ["missing symbol"] per
    symbol of the reference, in some order.  So an empty reference makes
    every target symbol extra, and an empty target makes every symbol of the
    reference missing. *)
Theorem disjoint_snapshots rt source target cmpLabel :
  NoDup (Ident <$> source) ->
  (forall s, s ∈ target -> Ident s ∉ Ident <$> source) ->
  exists ms, Permutation ms source
    /\ compareSymbolList rt source target cmpLabel
       = Ok (((fun s => "extra symbol found: " +:+ String s) <$> target)
               ++ ((fun s => "missing symbol: " +:+ String s) <$> ms)).
Proof. apply compareSymbolListWith_disjoint. Qed.

Lemma disjoint_snapshots_witness :
  NoDup (Ident <$> twoVars)
  /\ (forall s, s ∈ fooOf "int" -> Ident s ∉ Ident <$> twoVars)
  /\ exists ms, Permutation ms twoVars
       /\ compareSymbolList rangeDesc twoVars (fooOf "int") true
          = Ok (((fun s => "extra symbol found: " +:+ String s) <$> fooOf "int")
                  ++ ((fun s => "missing symbol: " +:+ String s) <$> ms)).
Proof.
  assert (Hnd : NoDup (Ident <$> twoVars)).
  { apply (bool_decide_unpack _). vm_compute. exact I. }
  assert (Hdisj : forall s, s ∈ fooOf "int" -> Ident s ∉ Ident <$> twoVars).
  { intros s Hs. apply list_elem_of_singleton in Hs. subst s.
    apply (bool_decide_unpack _). vm_compute. exact I. }
  split; [exact Hnd|]. split; [exact Hdisj|].
  exact (disjoint_snapshots rangeDesc twoVars (fooOf "int") true Hnd Hdisj).
Defined.

(* A list of diagnostics to which one was appended is not empty, whatever
   the later steps of [compareSymbol] do. *)
Ltac not_empty H :=
  repeat match type of H with
         | context [if ?c then _ else _] => destruct c
         | context [match ?o with Some _ => _ | None => _ end] => destruct o
         | context [mbind _ ?r] => destruct r; cbn [mbind result_bind] in H
         end; try discriminate H;
  injection H as H; repeat (apply app_eq_nil in H as [H ?]); discriminate.

(** A matched pair without a diagnostic has the same kind, the same label
    when labels are compared, the same underlying type when the kind is type
    and the same receiver type when it is method; its members are
    compatible, and so are the signatures when the kind is func. *)
Theorem compatible_pair rt a b cmpLabel :
  compareSymbol rt a b cmpLabel = Ok [] ->
  SymbolType a = SymbolType b
  /\ (cmpLabel = true -> Label a = Label b)
  /\ (SymbolType a = "type" -> UnderlyingType a = UnderlyingType b)
  /\ (SymbolType a = "method" -> ReceiverType a = ReceiverType b)
  /\ compareSymbolList rt (Members a) (Members b) true = Ok []
  /\ (SymbolType a = "func" ->
      exists fa fb, FuncSpecPtr a = Some fa /\ FuncSpecPtr b = Some fb
                    /\ compareFuncSpec rt fa fb = Ok []).
Proof.
  rewrite compareSymbol_unfold. cbn zeta. intros H.
  destruct (String.eqb_spec (SymbolType a) (SymbolType b)) as [Ety|Ety].
  2:{ exfalso. cbn [negb app] in H.
      destruct (compareSymbolList rt (Members a) (Members b) true); [|done].
      cbn [mbind result_bind] in H.
      not_empty H. }
  cbn [negb app] in H.
  destruct (cmpLabel && negb (Label a =? Label b)) eqn:El.
  { exfalso. destruct (compareSymbolList rt (Members a) (Members b) true); [|done].
    cbn [mbind result_bind] in H.
    not_empty H. }
  destruct ((SymbolType a =? "type") && negb (UnderlyingType a =? UnderlyingType b)) eqn:Eu.
  { exfalso. destruct (compareSymbolList rt (Members a) (Members b) true); [|done].
    cbn [mbind result_bind] in H.
    not_empty H. }
  destruct ((SymbolType a =? "method") && negb (ReceiverType a =? ReceiverType b)) eqn:Er.
  { exfalso. destruct (compareSymbolList rt (Members a) (Members b) true); [|done].
    cbn [mbind result_bind] in H.
    not_empty H. }
  destruct (compareSymbolList rt (Members a) (Members b) true) as [ms|]; [|done].
  cbn [mbind result_bind app] in H.
  assert (Hms : ms = [] /\
    (SymbolType a = "func" ->
      exists fa fb, FuncSpecPtr a = Some fa /\ FuncSpecPtr b = Some fb
                    /\ compareFuncSpec rt fa fb = Ok [])).
  { destruct (String.eqb_spec (SymbolType a) "func") as [Ef|Ef].
    - destruct (FuncSpecPtr a) as [fa|]; [|done].
      destruct (FuncSpecPtr b) as [fb|]; [|done].
      destruct (compareFuncSpec rt fa fb) as [fs|] eqn:Efs; [|done].
      cbn [mbind result_bind] in H. injection H as [-> ->]%app_eq_nil.
      split; [done|]. intros _. by exists fa, fb.
    - injection H as ->. split; [done|]. intros E. done. }
  destruct Hms as [-> Hf].
  split; [done|]. split.
  { intros ->. simpl in El. apply negb_false_iff in El. by apply String.eqb_eq. }
  split.
  { intros E. rewrite E in Eu. simpl in Eu. apply negb_false_iff in Eu.
    by apply String.eqb_eq. }
  split.
  { intros E. rewrite E in Er. simpl in Er. apply negb_false_iff in Er.
    by apply String.eqb_eq. }
  done.
Qed.

Lemma compatible_pair_witness :
  compareSymbol rangeAsc (funcSymbol "Foo" [typeSymbol "int"] [])
                         (funcSymbol "Foo" [typeSymbol "int"] []) true = Ok []
  /\ SymbolType (funcSymbol "Foo" [typeSymbol "int"] [])
     = SymbolType (funcSymbol "Foo" [typeSymbol "int"] []).
Proof.
  split; [reflexivity|].
  exact (proj1 (compatible_pair rangeAsc (funcSymbol "Foo" [typeSymbol "int"] [])
                  (funcSymbol "Foo" [typeSymbol "int"] []) true eq_refl)).
Defined.

(** ** Locations do not take part in the comparison *)

Lemma eraseLocation_unfold s :
  eraseLocation s =
    {| Label := Label s; SymbolType := SymbolType s;
       UnderlyingType := UnderlyingType s; ReceiverType := ReceiverType s;
       FileName := ""; Pos := 0;
       Members := eraseLocation <$> Members s;
       FuncSpecPtr :=
         match FuncSpecPtr s with
         | Some fs => Some {| Params := eraseLocation <$> Params fs;
                              Returns := eraseLocation <$> Returns fs |}
         | None => None
         end |}.
Proof. by destruct s. Qed.

Lemma Ident_eraseLocation s : Ident (eraseLocation s) = Ident s.
Proof. by destruct s. Qed.

Lemma sameVerdict_trans r1 r2 r3 :
  sameVerdict r1 r2 -> sameVerdict r2 r3 -> sameVerdict r1 r3.
Proof. destruct r1, r2, r3; simpl; congruence || done. Qed.

Lemma sameVerdict_sym r1 r2 : sameVerdict r1 r2 -> sameVerdict r2 r1.
Proof. destruct r1, r2; simpl; congruence || done. Qed.

Section Locations.
Variable rt : MapRange.

Lemma buildAgg_eraseLocation source :
  buildAgg (eraseLocation <$> source) = eraseEntry <$> buildAgg source.
Proof.
  unfold buildAgg.
  rewrite <- (fmap_empty (M := gmap string) eraseEntry) at 1.
  generalize (∅ : gmap string (option Symbol)).
  induction source as [|s source IH]; intros agg; simpl; [done|].
  rewrite <- IH, fmap_insert. by rewrite Ident_eraseLocation.
Qed.

Lemma unconsumed_eraseLocation (agg : gmap string (option Symbol)) :
  length (unconsumed (range rt (eraseEntry <$> agg)))
  = length (unconsumed (range rt agg)).
Proof.
  rewrite (Permutation_length (unconsumed_Permutation _ _ (range_perm rt _ _))).
  rewrite (Permutation_length (unconsumed_Permutation _ _ (range_perm rt _ agg))).
  rewrite map_to_list_fmap.
  unfold unconsumed. induction (map_to_list agg) as [|[k [s|]] l IH]; [done| |].
  - rewrite fmap_cons. cbn. by rewrite IH.
  - rewrite fmap_cons. cbn. by rewrite IH.
Qed.

Lemma targetLoop_eraseLocation cmp1 cmp2 cmpLabel target agg d1 d2 :
  Forall (fun s => forall a c,
            sameVerdict (cmp1 a s c) (cmp2 (eraseLocation a) (eraseLocation s) c))
         target ->
  length d1 = length d2 ->
  sameLoopVerdict
    (targetLoop cmp1 cmpLabel target agg d1)
    (targetLoop cmp2 cmpLabel (eraseLocation <$> target) (eraseEntry <$> agg) d2).
Proof.
  intros Hcmp. revert agg d1 d2.
  induction Hcmp as [|x rest Hx _ IH]; intros agg d1 d2 Hd; simpl; [done|].
  rewrite Ident_eraseLocation, lookup_fmap.
  destruct (agg !! Ident x) as [[orig|]|]; simpl; [|done|].
  - specialize (Hx orig cmpLabel).
    destruct (cmp1 orig x cmpLabel) as [ds1|],
             (cmp2 (eraseLocation orig) (eraseLocation x) cmpLabel) as [ds2|];
      simpl in *; try done.
    change (@None Symbol) with (eraseEntry None). rewrite <- fmap_insert.
    apply IH. rewrite !length_app. lia.
  - apply IH. rewrite !length_app. simpl. lia.
Qed.

Lemma compareSymbolListWith_eraseLocation cmp1 cmp2 source target cmpLabel :
  Forall (fun s => forall a c,
            sameVerdict (cmp1 a s c) (cmp2 (eraseLocation a) (eraseLocation s) c))
         target ->
  sameVerdict
    (compareSymbolListWith rt cmp1 source target cmpLabel)
    (compareSymbolListWith rt cmp2 (eraseLocation <$> source) (eraseLocation <$> target)
       cmpLabel).
Proof.
  intros Hcmp. rewrite !compareSymbolListWith_spec, buildAgg_eraseLocation.
  pose proof (targetLoop_eraseLocation cmp1 cmp2 cmpLabel target (buildAgg source) [] []
                Hcmp eq_refl) as H.
  destruct (targetLoop cmp1 cmpLabel target (buildAgg source) []) as [[agg1 d1]|],
           (targetLoop cmp2 cmpLabel (eraseLocation <$> target)
              (eraseEntry <$> buildAgg source) []) as [[agg2 d2]|];
    simpl in *; try done.
  destruct H as [-> Hd].
  rewrite !length_app, !length_fmap, unconsumed_eraseLocation. lia.
Qed.

Lemma compareFuncSpecWith_eraseLocation cmp1 cmp2 a b :
  Forall (fun s => forall a c,
            sameVerdict (cmp1 a s c) (cmp2 (eraseLocation a) (eraseLocation s) c))
         (Params b) ->
  Forall (fun s => forall a c,
            sameVerdict (cmp1 a s c) (cmp2 (eraseLocation a) (eraseLocation s) c))
         (Returns b) ->
  sameVerdict
    (compareFuncSpecWith rt cmp1 a b)
    (compareFuncSpecWith rt cmp2
       {| Params := eraseLocation <$> Params a; Returns := eraseLocation <$> Returns a |}
       {| Params := eraseLocation <$> Params b; Returns := eraseLocation <$> Returns b |}).
Proof.
  intros Hp Hr. unfold compareFuncSpecWith. cbn [Params Returns].
  pose proof (compareSymbolListWith_eraseLocation cmp1 cmp2 (Params a) (Params b) false Hp)
    as H1.
  pose proof (compareSymbolListWith_eraseLocation cmp1 cmp2 (Returns a) (Returns b) false Hr)
    as H2.
  destruct (compareSymbolListWith rt cmp1 (Params a) (Params b) false),
           (compareSymbolListWith rt cmp2 (eraseLocation <$> Params a)
              (eraseLocation <$> Params b) false);
    simpl in *; try done.
  destruct (compareSymbolListWith rt cmp1 (Returns a) (Returns b) false),
           (compareSymbolListWith rt cmp2 (eraseLocation <$> Returns a)
              (eraseLocation <$> Returns b) false);
    simpl in *; try done.
  rewrite !length_app, !length_fmap. lia.
Qed.

Lemma compareSymbol_eraseLocation b :
  forall a cmpLabel,
    sameVerdict (compareSymbol rt a b cmpLabel)
                (compareSymbol rt (eraseLocation a) (eraseLocation b) cmpLabel).
Proof.
  induction b as [b IHm IHf] using Symbol_nested_ind. intros a cmpLabel.
  rewrite !compareSymbol_unfold. cbn zeta.
  rewrite (eraseLocation_unfold a), (eraseLocation_unfold b).
  cbn [Label SymbolType UnderlyingType ReceiverType Members FuncSpecPtr].
  rewrite <- (eraseLocation_unfold a), <- (eraseLocation_unfold b).
  pose proof (compareSymbolListWith_eraseLocation _ _ (Members a) (Members b) true IHm)
    as Hm.
  fold (compareSymbolList rt) in Hm.
  destruct (compareSymbolList rt (Members a) (Members b) true) as [ms1|],
           (compareSymbolList rt (eraseLocation <$> Members a)
              (eraseLocation <$> Members b) true) as [ms2|];
    simpl in Hm; try done; cbn [mbind result_bind].
  assert (Hlen : forall (c : bool) (l1 l2 : list string) m1 m2,
    length l1 = length l2 ->
    length (if c then l1 ++ [m1] else l1) = length (if c then l2 ++ [m2] else l2)).
  { intros [] l1 l2 m1 m2 E; [|done]. rewrite !length_app. by rewrite E. }
  destruct (String.eqb (SymbolType a) "func").
  - destruct (FuncSpecPtr a) as [fa|]; [|done].
    destruct (FuncSpecPtr b) as [fb|] eqn:Efb; [|done].
    destruct (IHf fb eq_refl) as [IHp IHr].
    pose proof (compareFuncSpecWith_eraseLocation _ _ fa fb IHp IHr) as Hf.
    fold (compareFuncSpec rt) in Hf.
    destruct (compareFuncSpec rt fa fb),
             (compareFuncSpec rt
                {| Params := eraseLocation <$> Params fa;
                   Returns := eraseLocation <$> Returns fa |}
                {| Params := eraseLocation <$> Params fb;
                   Returns := eraseLocation <$> Returns fb |});
      simpl in Hf; try done; cbn [mbind result_bind sameVerdict].
    rewrite !length_app, Hm, Hf. f_equal. f_equal. by repeat apply Hlen.
  - cbn [sameVerdict]. rewrite !length_app, Hm. f_equal. by repeat apply Hlen.
Qed.

Lemma compareSymbolList_eraseLocation source target cmpLabel :
  sameVerdict (compareSymbolList rt source target cmpLabel)
              (compareSymbolList rt (eraseLocation <$> source) (eraseLocation <$> target)
                 cmpLabel).
Proof.
  apply compareSymbolListWith_eraseLocation, Forall_forall.
  intros s _. apply compareSymbol_eraseLocation.
Qed.
End Locations.

(** File names and positions, at any depth, change neither whether the
    comparison panics nor the number of its diagnostics: two pairs of
    snapshots that differ in locations only get the same verdict. *)
Theorem locations_do_not_change_the_verdict rt source target source' target' cmpLabel :
  eraseLocation <$> source' = eraseLocation <$> source ->
  eraseLocation <$> target' = eraseLocation <$> target ->
  sameVerdict (compareSymbolList rt source target cmpLabel)
              (compareSymbolList rt source' target' cmpLabel).
Proof.
  intros Hs Ht.
  apply (sameVerdict_trans _ _ _ (compareSymbolList_eraseLocation rt source target cmpLabel)).
  rewrite <- Hs, <- Ht. apply sameVerdict_sym, compareSymbolList_eraseLocation.
Qed.

Lemma locations_do_not_change_the_verdict_witness :
  eraseLocation <$> smallTreeAt "a.go" 12 = eraseLocation <$> smallTree
  /\ eraseLocation <$> (twoVarsAndFooAt "b.go" 40)
     = eraseLocation <$> twoVarsAndFoo
  /\ sameVerdict
       (compareSymbolList rangeAsc smallTree twoVarsAndFoo true)
       (compareSymbolList rangeAsc (smallTreeAt "a.go" 12)
          (twoVarsAndFooAt "b.go" 40) true).
Proof.
  split; [reflexivity|]. split; [reflexivity|].
  exact (locations_do_not_change_the_verdict rangeAsc smallTree twoVarsAndFoo
           (smallTreeAt "a.go" 12) (twoVarsAndFooAt "b.go" 40) true
           eq_refl eq_refl).
Defined.

(** ** The symbols of parameters and results *)

Section AppendInversion.
Context {A B : Type}.

Lemma appendEach_Ok_inv (body : A -> result B) l acc r :
  appendEach body l acc = Ok r ->
  exists ys, r = acc ++ ys /\ Forall2 (fun x y => body x = Ok y) l ys.
Proof.
  revert acc. induction l as [|x l IH]; intros acc; simpl.
  - intros [= <-]. exists []. by rewrite app_nil_r.
  - destruct (body x) as [y|] eqn:Ex; [|done]. simpl. intros Hl.
    destruct (IH _ Hl) as (ys & -> & Hys). exists (y :: ys).
    rewrite <- app_assoc. split; [done|]. by constructor.
Qed.

Lemma appendAll_Ok_inv (bodies : A -> result (list B)) l acc r :
  appendAll bodies l acc = Ok r ->
  exists yss, r = acc ++ concat yss /\ Forall2 (fun x ys => bodies x = Ok ys) l yss.
Proof.
  revert acc. induction l as [|x l IH]; intros acc; simpl.
  - intros [= <-]. exists []. by rewrite app_nil_r.
  - destruct (bodies x) as [ys|] eqn:Ex; [|done]. simpl. intros Hl.
    destruct (IH _ Hl) as (yss & -> & Hyss). exists (ys :: yss).
    simpl. rewrite <- app_assoc. split; [done|]. by constructor.
Qed.
End AppendInversion.

Lemma withPos_zero Name res : withPos Name 0 res = Ok res.
Proof. done. Qed.





(** ** When classification succeeds *)

Section ExprInduction.
Variable P : ast.Expr -> Prop.

Hypothesis interface_step : forall methods,
  Forall (fun m => forall ft, ast.Typ m = ast.FuncTypeExpr ft -> signatureAll P ft) methods ->
  P (ast.InterfaceType methods).
Hypothesis other_step : forall e,
  (forall methods, e <> ast.InterfaceType methods) -> P e.

Lemma Expr_signature_ind (e : ast.Expr) : P e.
Proof.
  revert e. fix IH 1. intros [id|methods|fields|len elt|ft|k v|v|x|x sel|elt|x|];
    try (apply other_step; intros; discriminate).
  apply interface_step.
  induction methods as [|[names typ] rest IHl]; constructor; [|exact IHl].
  destruct typ as [| | | |[pos ps rs]| | | | | | |]; intros ft E; try discriminate E.
  injection E as <-. split; intros list El; simpl in El.
  - destruct ps as [l|]; [|discriminate El]. injection El as <-.
    induction l as [|[ns t] l IHp]; constructor; [apply IH|exact IHp].
  - destruct rs as [l|]; [|discriminate El]. injection El as <-.
    induction l as [|[ns t] l IHp]; constructor; [apply IH|exact IHp].
Qed.
End ExprInduction.

Lemma isOk_appendEach {A B} (body : A -> result B) l acc :
  isOk (appendEach body l acc) = forallb (fun x => isOk (body x)) l.
Proof.
  revert acc. induction l as [|x l IH]; intros acc; simpl; [done|].
  destruct (body x); simpl; [apply IH|done].
Qed.

Lemma isOk_withPos Name basePos res :
  basePos = 0%Z \/ is_Some Name -> isOk (withPos Name basePos res) = true.
Proof.
  unfold withPos. intros [->|[id ->]]; [done|]. by destruct (negb _).
Qed.

Lemma isOk_bind {A B} (r : result A) (f : A -> result B) :
  isOk (r ≫= f) = isOk r && match r with Ok a => isOk (f a) | Panic _ => true end.
Proof. by destruct r. Qed.

Lemma forallb_ext_Forall {A} (f g : A -> bool) l :
  Forall (fun x => f x = g x) l -> forallb f l = forallb g l.
Proof. induction 1 as [|x l E _ IH]; simpl; [done|]. by rewrite E, IH. Qed.

Lemma classifies_unfold e :
  classifies e =
    match e with
    | ast.IdentExpr _ | ast.ArrayType _ _ => true
    | ast.StructType fields =>
        forallb (fun f => negb (embedded f) || isIdentExpr (ast.Typ f)) fields
    | ast.InterfaceType methods =>
        forallb (fun m =>
                   match ast.Names m with
                   | [] => isIdentExpr (ast.Typ m)
                   | _ :: _ =>
                       match ast.Typ m with
                       | ast.FuncTypeExpr ft => signatureClassifies ft
                       | _ => false
                       end
                   end) methods
    | _ => false
    end.
Proof. by destruct e. Qed.

Lemma isOk_structMember f :
  isOk (structMember f) = negb (embedded f) || isIdentExpr (ast.Typ f).
Proof.
  unfold structMember, embedded. destruct (ast.Names f); [|done]. by destruct (ast.Typ f).
Qed.

Section Classification.
Variable Sprint : ast.Expr -> string.

Lemma isOk_funcSpec ft :
  signatureAll (classifiedWhenOk Sprint) ft ->
  isOk (funcSpec Sprint ft) = signatureClassifies ft.
Proof.
  intros [Hp Hr]. unfold funcSpec, funcSpecWith, signatureClassifies, signatureClassifiesWith.
  assert (Hlist : forall list, Forall (fun f => classifiedWhenOk Sprint (ast.Typ f)) list ->
    isOk (appendEach
            (fun param => formatType Sprint (ast.mkTypeSpec None (ast.Typ param)) 0)
            list [])
    = forallb (fun f => classifies (ast.Typ f)) list).
  { intros list Hl. rewrite isOk_appendEach. apply forallb_ext_Forall.
    eapply Forall_impl; [exact Hl|]. intros f Hf. apply Hf. by left. }
  assert (H1 : isOk (match ast.Params ft with
                     | Some list =>
                         appendEach
                           (fun param =>
                              formatType Sprint (ast.mkTypeSpec None (ast.Typ param)) 0)
                           list []
                     | None => Ok []
                     end)
               = match ast.Params ft with
                 | Some list => forallb (fun f => classifies (ast.Typ f)) list
                 | None => true
                 end).
  { destruct (ast.Params ft) as [ps|]; [|done]. by apply Hlist, Hp. }
  assert (H2 : isOk (match ast.Results ft with
                     | Some list =>
                         appendEach
                           (fun param =>
                              formatType Sprint (ast.mkTypeSpec None (ast.Typ param)) 0)
                           list []
                     | None => Ok []
                     end)
               = match ast.Results ft with
                 | Some list => forallb (fun f => classifies (ast.Typ f)) list
                 | None => true
                 end).
  { destruct (ast.Results ft) as [rs|]; [|done]. by apply Hlist, Hr. }
  rewrite <- H1, <- H2.
  destruct (match ast.Params ft with Some _ => _ | None => _ end); [|done].
  cbn [mbind result_bind].
  by destruct (match ast.Results ft with Some _ => _ | None => _ end).
Qed.

Lemma classifiedWhenOk_all e : classifiedWhenOk Sprint e.
Proof.
  induction e as [methods IH|e Hother] using Expr_signature_ind.
  - intros Name basePos Hpos. rewrite classifies_unfold.
    change (formatTypeOf Sprint Name (ast.InterfaceType methods) basePos)
      with (formatType Sprint (ast.mkTypeSpec Name (ast.InterfaceType methods)) basePos).
    rewrite formatType_unfold. cbn zeta. cbn [ast.SpecName ast.SpecType].
    rewrite isOk_bind, isOk_appendEach.
    rewrite (forallb_ext_Forall _
               (fun m => match ast.Names m with
                         | [] => isIdentExpr (ast.Typ m)
                         | _ :: _ =>
                             match ast.Typ m with
                             | ast.FuncTypeExpr ft => signatureClassifies ft
                             | _ => false
                             end
                         end) methods).
    + destruct (appendEach _ methods []); rewrite ?andb_true_r; [|done].
      by rewrite isOk_withPos, andb_true_r.
    + eapply Forall_impl; [exact IH|]. intros m Hm.
      unfold interfaceMember, interfaceMemberWith.
      destruct (ast.Names m); [by destruct (ast.Typ m)|].
      destruct (ast.Typ m) as [| | | |ft| | | | | | |] eqn:Et; try done.
      fold (funcSpec Sprint ft). rewrite isOk_bind, (isOk_funcSpec ft (Hm ft Et)).
      destruct (funcSpec Sprint ft); by rewrite ?andb_true_r.
  - intros Name basePos Hpos. rewrite classifies_unfold.
    change (formatTypeOf Sprint Name e basePos)
      with (formatType Sprint (ast.mkTypeSpec Name e) basePos).
    rewrite formatType_unfold. cbn zeta. cbn [ast.SpecName ast.SpecType].
    destruct e as [id|methods|fields|len elt|ft|k v|v|x|x sel|elt|x|]; try done.
    + by apply isOk_withPos.
    + by destruct (Hother methods).
    + rewrite isOk_bind, isOk_appendEach.
      rewrite (forallb_ext_Forall _ (fun f => negb (embedded f) || isIdentExpr (ast.Typ f))
                 fields).
      * destruct (appendEach _ fields []); rewrite ?andb_true_r; [|done].
        by rewrite isOk_withPos, andb_true_r.
      * apply Forall_forall. intros f _. apply isOk_structMember.
    + by apply isOk_withPos.
Qed.
End Classification.

(** Classification returns a symbol exactly for the type expressions that
    [classifies] accepts (given that a declaration asked for its position
    has a name), and the extraction of a signature succeeds exactly when all
    its parameter and result types are of this kind. *)
Theorem classification_succeeds_iff Sprint spec basePos ft :
  basePos = 0%Z \/ is_Some (ast.SpecName spec) ->
  isOk (formatType Sprint spec basePos) = classifies (ast.SpecType spec)
  /\ isOk (funcSpec Sprint ft) = signatureClassifies ft.
Proof.
  intros Hpos. split.
  - by apply classifiedWhenOk_all.
  - apply isOk_funcSpec. split; intros list _; apply Forall_forall; intros f _;
      apply classifiedWhenOk_all.
Qed.

Lemma classification_succeeds_iff_witness :
  (1%Z = 0%Z \/ is_Some (ast.SpecName (ast.mkTypeSpec (Some (ident "Store")) storeInterface)))
  /\ isOk (formatType SprintName (ast.mkTypeSpec (Some (ident "Store")) storeInterface) 1)
     = true
  /\ isOk (formatType SprintName interfaceWithPointerMethod 1) = false.
Proof.
  assert (H1 : 1%Z = 0%Z
               \/ is_Some (ast.SpecName (ast.mkTypeSpec (Some (ident "Store")) storeInterface))).
  { right. by eexists. }
  assert (H2 : 1%Z = 0%Z \/ is_Some (ast.SpecName interfaceWithPointerMethod)).
  { right. by eexists. }
  split; [exact H1|]. split.
  - exact (eq_trans (proj1 (classification_succeeds_iff SprintName _ 1 (ast.mkFuncType 0 None None) H1))
             eq_refl).
  - exact (eq_trans (proj1 (classification_succeeds_iff SprintName _ 1 (ast.mkFuncType 0 None None) H2))
             eq_refl).
Defined.

(** ** The shape of what is extracted *)

Lemma structMember_shape f s : structMember f = Ok s -> structMemberShape s = true.
Proof.
  unfold structMember. destruct (ast.Names f).
  - destruct (ast.Typ f); intros [= <-]; done.
  - intros [= <-]. done.
Qed.

Lemma interfaceMember_shape Sprint f s :
  interfaceMember Sprint f = Ok s -> interfaceMemberShape s = true.
Proof.
  unfold interfaceMember, interfaceMemberWith. destruct (ast.Names f).
  - destruct (ast.Typ f); intros [= <-]; done.
  - destruct (ast.Typ f) as [| | | |ft| | | | | | |]; try done.
    destruct (funcSpecWith _ ft); [|done]. intros [= <-]. done.
Qed.

Lemma Forall2_forallb {A B} (R : A -> B -> Prop) (f : B -> bool) l ys :
  Forall2 R l ys -> (forall x y, R x y -> f y = true) -> forallb f ys = true.
Proof.
  intros H Hf. induction H as [|x y l ys Hxy _ IH]; simpl; [done|].
  by rewrite (Hf x y Hxy), IH.
Qed.

Lemma withPos_inv Name basePos res s :
  withPos Name basePos res = Ok s ->
  s = res \/ exists pos, s = setPos res pos /\ basePos <> 0%Z.
Proof.
  unfold withPos. destruct (Z.eqb_spec basePos 0) as [->|Hne]; simpl.
  - intros [= <-]. by left.
  - destruct (TypeSpec_Pos Name); [|done]. simpl. intros [= <-]. right. by eexists.
Qed.

Lemma formatType_shape Sprint spec basePos s :
  formatType Sprint spec basePos = Ok s ->
  declaredTypeShape s = true /\ (basePos = 0%Z -> Pos s = 0%Z).
Proof.
  rewrite formatType_unfold. cbn zeta.
  assert (Hpos : forall res, declaredTypeShape res = true -> Pos res = 0%Z ->
    withPos (ast.SpecName spec) basePos res = Ok s ->
    declaredTypeShape s = true /\ (basePos = 0%Z -> Pos s = 0%Z)).
  { intros res Hres Hzero [->|(pos & -> & Hne)]%withPos_inv; [done|]. done. }
  destruct (ast.SpecType spec) as [id|methods|fields|len elt| | | | | | | |]; try done.
  - by apply Hpos.
  - destruct (appendEach _ methods []) as [members|] eqn:Em; [|done].
    cbn [mbind result_bind]. apply Hpos; [|done].
    apply appendEach_Ok_inv in Em as (ys & -> & Hys).
    unfold declaredTypeShape. cbn.
    rewrite (Forall2_forallb _ interfaceMemberShape _ _ Hys); [done|].
    intros x y. apply interfaceMember_shape.
  - destruct (appendEach _ fields []) as [members|] eqn:Em; [|done].
    cbn [mbind result_bind]. apply Hpos; [|done].
    apply appendEach_Ok_inv in Em as (ys & -> & Hys).
    unfold declaredTypeShape. cbn.
    rewrite (Forall2_forallb _ structMemberShape _ _ Hys); [done|].
    intros x y. apply structMember_shape.
  - by apply Hpos.
Qed.

Lemma funcSpec_shape Sprint ft fs :
  funcSpec Sprint ft = Ok fs -> signatureShape fs = true.
Proof.
  unfold funcSpec, funcSpecWith.
  assert (Hlist : forall (fields : option (list ast.Field)) l,
    match fields with
    | Some list =>
        appendEach (fun param => formatType Sprint (ast.mkTypeSpec None (ast.Typ param)) 0)
                   list []
    | None => Ok []
    end = Ok l ->
    forallb (fun s => declaredTypeShape s && Z.eqb (Pos s) 0) l = true).
  { intros [list|] l; [|by intros [= <-]].
    intros (ys & -> & Hys)%appendEach_Ok_inv. simpl.
    apply (Forall2_forallb _ _ _ _ Hys). intros x y Hy.
    apply formatType_shape in Hy as [-> Hzero]. by rewrite Hzero. }
  destruct (match ast.Params ft with Some _ => _ | None => _ end) as [ps|] eqn:Ep; [|done].
  cbn [mbind result_bind].
  destruct (match ast.Results ft with Some _ => _ | None => _ end) as [rs|] eqn:Er; [|done].
  intros [= <-]. unfold signatureShape. cbn [Params Returns].
  by rewrite (Hlist _ _ Ep), (Hlist _ _ Er).
Qed.

Lemma declaredTypeShape_exported res fileName :
  declaredTypeShape res = true -> exportedShape fileName (setFileName res fileName) = true.
Proof.
  destruct res as [label kind underlying receiver file pos members fs].
  unfold declaredTypeShape, exportedShape, hasFuncSpec. cbn.
  intros [[[Hfs Hrecv]%andb_prop Hfile]%andb_prop Hkind]%andb_prop.
  rewrite String.eqb_refl, Hfs, Hrecv. cbn.
  destruct (String.eqb_spec kind "func") as [->|_]; [done|].
  destruct (String.eqb_spec kind "method") as [->|_]; [done|].
  destruct (String.eqb_spec kind "var") as [->|_]; [done|].
  unfold declaredTypeShape, hasFuncSpec. cbn. by rewrite Hfs, Hrecv.
Qed.

Lemma specExports_shape IsExported Sprint fileName file spec l :
  specExports IsExported Sprint fileName file spec = Ok l ->
  forallb (exportedShape fileName) l = true.
Proof.
  unfold specExports. destruct spec as [|Names|spec].
  - by intros [= <-].
  - destruct Names as [|name0 ?]; [done|].
    destruct (IsExported (ast.Name name0)); simpl; intros [= <-]; [|done].
    unfold exportedShape. cbn. by rewrite String.eqb_refl.
  - destruct (ast.SpecName spec); [|done].
    destruct (IsExported _); simpl; [|by intros [= <-]].
    destruct (formatType Sprint spec (ast.Package file)) as [res|] eqn:Ef; [|done].
    simpl. intros [= <-]. apply formatType_shape in Ef as [Hres _].
    cbn [forallb]. rewrite andb_true_r. by apply declaredTypeShape_exported.
Qed.

Lemma appendAll_forallb {A B} (bodies : A -> result (list B)) (f : B -> bool) l acc r :
  appendAll bodies l acc = Ok r ->
  forallb f acc = true ->
  (forall x ys, x ∈ l -> bodies x = Ok ys -> forallb f ys = true) ->
  forallb f r = true.
Proof.
  revert acc. induction l as [|x l IH]; intros acc; simpl.
  - by intros [= <-].
  - destruct (bodies x) as [ys|] eqn:Ex; [|done]. simpl. intros Hl Hacc Hf.
    apply (IH _ Hl).
    + rewrite forallb_app, Hacc. apply (Hf x); [by left|done].
    + intros y ys' Hy. apply Hf. by right.
Qed.

Lemma declExports_shape IsExported Sprint fileName file decl l :
  declExports IsExported Sprint fileName file decl = Ok l ->
  forallb (exportedShape fileName) l = true.
Proof.
  unfold declExports. destruct decl as [|Specs|decl].
  - by intros [= <-].
  - intros H. apply (appendAll_forallb _ _ _ _ _ H); [done|].
    intros spec ys _. apply specExports_shape.
  - destruct (IsExported _); simpl; [|by intros [= <-]].
    destruct (ast.Recv decl).
    + destruct (findReceiver decl); [|done]. simpl.
      destruct (funcSpec Sprint (ast.DeclType decl)) as [fs|] eqn:Efs; [|done].
      simpl. intros [= <-]. unfold exportedShape. cbn.
      by rewrite String.eqb_refl, (funcSpec_shape _ _ _ Efs).
    + destruct (funcSpec Sprint (ast.DeclType decl)) as [fs|] eqn:Efs; [|done].
      simpl. intros [= <-]. unfold exportedShape. cbn.
      by rewrite String.eqb_refl, (funcSpec_shape _ _ _ Efs).
Qed.

(** Every symbol of an extracted tree carries the name of a file of the
    package and has one of the seven top-level kinds; it has a funcSpec
    exactly when its kind is func or method, members only when it is a
    struct or an interface, and its parameters and results are classified
    types without position. *)
Theorem extracted_symbols_shape IsExported Sprint rt Files tree s :
  mainExports IsExported Sprint rt Files = Ok tree ->
  s ∈ tree ->
  exists fileName file, Files !! fileName = Some file /\ exportedShape fileName s = true.
Proof.
  unfold mainExports. intros (yss & -> & Hyss)%appendAll_Ok_inv Hs.
  simpl in Hs. apply list_elem_of_In, in_concat in Hs as (ys & Hys & Hs).
  apply list_elem_of_In in Hys, Hs.
  apply list_elem_of_lookup in Hys as [i Hi].
  destruct (Forall2_lookup_r _ _ _ _ _ Hyss Hi) as ([fileName file] & Hentry & Hfile).
  exists fileName, file. split.
  - apply elem_of_map_to_list. rewrite <- (range_perm rt).
    by apply list_elem_of_lookup_2 in Hentry.
  - simpl in Hfile.
    assert (Hall : forallb (exportedShape fileName) ys = true).
    { apply (appendAll_forallb _ _ _ _ _ Hfile); [done|].
      intros decl l _. apply declExports_shape. }
    by apply (forallb_elem_of _ ys).
Qed.

Lemma extracted_symbols_shape_witness :
  mainExports IsExportedASCII SprintName rangeAsc apiPackage = Ok apiTree
  /\ (mkSymbol "Default" "var" "" "" "api.go" 89 [] None ∈ apiTree)
  /\ exists fileName file,
       apiPackage !! fileName = Some file
       /\ exportedShape fileName (mkSymbol "Default" "var" "" "" "api.go" 89 [] None) = true.
Proof.
  assert (Hrun : mainExports IsExportedASCII SprintName rangeAsc apiPackage = Ok apiTree)
    by (vm_compute; reflexivity).
  assert (Hin : mkSymbol "Default" "var" "" "" "api.go" 89 [] None ∈ apiTree)
    by (right; left).
  split; [exact Hrun|]. split; [exact Hin|].
  exact (extracted_symbols_shape IsExportedASCII SprintName rangeAsc apiPackage _ _ Hrun Hin).
Defined.

(** ** The files of a package, in any order *)

Section AppendAll.
Context {A B : Type}.
Variable bodies : A -> result (list B).

Lemma appendAll_Ok l acc :
  forallb (fun x => isOk (bodies x)) l = true ->
  appendAll bodies l acc = Ok (acc ++ (l ≫= outputs bodies)).
Proof.
  revert acc. induction l as [|x l IH]; intros acc; simpl.
  - by rewrite app_nil_r.
  - unfold outputs at 1. destruct (bodies x) as [ys|]; [|done]. simpl. intros Hl.
    rewrite IH by done. by rewrite <- app_assoc.
Qed.

Lemma appendAll_Panic l acc :
  forallb (fun x => isOk (bodies x)) l = false ->
  exists p, appendAll bodies l acc = Panic p.
Proof.
  revert acc. induction l as [|x l IH]; intros acc; simpl; [done|].
  destruct (bodies x) as [ys|]; simpl; [by apply IH|by eexists].
Qed.

Lemma appendAll_skipped l acc :
  (forall x, x ∈ l -> bodies x = Ok []) -> appendAll bodies l acc = Ok acc.
Proof.
  revert acc. induction l as [|x l IH]; intros acc Hl; simpl; [done|].
  rewrite (Hl x) by left. simpl. rewrite app_nil_r. apply IH.
  intros y Hy. apply Hl. by right.
Qed.
End AppendAll.

Lemma forallb_Permutation {A} (f : A -> bool) l1 l2 :
  Permutation l1 l2 -> forallb f l1 = forallb f l2.
Proof.
  induction 1 as [|x l1 l2 _ IH|x y l|l1 l2 l3 _ IH1 _ IH2]; simpl.
  - done.
  - by rewrite IH.
  - by rewrite !andb_assoc, (andb_comm (f y)).
  - congruence.
Qed.

(** Whether the extraction panics does not depend on the order in which the
    runtime ranges over the files of the package, and the extracted trees of
    two orders are permutations of each other. *)
Theorem file_order_permutes_the_tree IsExported Sprint rt1 rt2 Files :
  sameExports (mainExports IsExported Sprint rt1 Files)
              (mainExports IsExported Sprint rt2 Files).
Proof.
  unfold mainExports.
  set (body := fun entry : string * ast.File =>
                 appendAll (declExports IsExported Sprint entry.1 entry.2)
                           (ast.Decls entry.2) []).
  assert (Hperm : Permutation (range rt1 Files) (range rt2 Files)).
  { by rewrite !range_perm. }
  destruct (forallb (fun x => isOk (body x)) (range rt1 Files)) eqn:E1.
  - rewrite (appendAll_Ok body _ [] E1).
    rewrite (forallb_Permutation _ _ _ Hperm) in E1.
    rewrite (appendAll_Ok body _ [] E1). simpl. by rewrite Hperm.
  - destruct (appendAll_Panic body _ [] E1) as [p ->].
    rewrite (forallb_Permutation _ _ _ Hperm) in E1.
    by destruct (appendAll_Panic body _ [] E1) as [q ->].
Qed.

(** ** Declarations that are not exported *)

Lemma specExports_unexported IsExported Sprint fileName file spec :
  unexportedSpec IsExported spec = true ->
  specExports IsExported Sprint fileName file spec = Ok [].
Proof.
  destruct spec as [|[|name0 ?]|spec]; simpl; try done.
  - by intros ->.
  - destruct (ast.SpecName spec); [|done]. by intros ->.
Qed.

Lemma declExports_unexported IsExported Sprint fileName file decl :
  unexportedDecl IsExported decl = true ->
  declExports IsExported Sprint fileName file decl = Ok [].
Proof.
  destruct decl as [|Specs|decl]; simpl; [done| |by intros ->].
  intros Hall. apply appendAll_skipped. intros spec Hspec.
  apply specExports_unexported. by apply (forallb_elem_of _ Specs).
Qed.

(** A package without an exported declaration has the empty tree: the
    declarations that are not exported are skipped before their types are
    looked at, so their shapes cannot abort the run. *)
Theorem unexported_declarations_are_skipped IsExported Sprint rt Files :
  (forall fileName file, Files !! fileName = Some file ->
     forallb (unexportedDecl IsExported) (ast.Decls file) = true) ->
  mainExports IsExported Sprint rt Files = Ok [].
Proof.
  intros Hall. unfold mainExports. apply appendAll_skipped.
  intros [fileName file] Hentry. simpl.
  rewrite (range_perm rt) in Hentry. apply elem_of_map_to_list in Hentry.
  apply appendAll_skipped. intros decl Hdecl.
  apply declExports_unexported.
  apply (forallb_elem_of _ (ast.Decls file)); [|done]. by apply (Hall fileName).
Qed.

Lemma unexported_declarations_are_skipped_witness :
  (forall fileName file, internalPackage !! fileName = Some file ->
     forallb (unexportedDecl IsExportedASCII) (ast.Decls file) = true)
  /\ mainExports IsExportedASCII SprintName rangeDesc internalPackage = Ok [].
Proof.
  assert (Hall : forall fileName file, internalPackage !! fileName = Some file ->
     forallb (unexportedDecl IsExportedASCII) (ast.Decls file) = true).
  { intros fileName file. unfold internalPackage.
    intros [[_ <-]|[_ Hempty]]%lookup_insert_Some; [reflexivity|].
    by rewrite lookup_empty in Hempty. }
  split; [exact Hall|].
  exact (unexported_declarations_are_skipped IsExportedASCII SprintName rangeDesc
           internalPackage Hall).
Defined.

(** ** The program *)

Section MainProperties.
Variable IsExported : string -> bool.
Variable Sprint : ast.Expr -> string.
Variable Marshal : SymbolList -> string.
Variable rt : MapRange.

(** Without [-p], a directory that does not hold exactly one package,
    the empty directory included, ends in the panic
    ["multiple packages found"], not in an exit code. *)
Theorem no_single_package_panics pkgs compareTo refData :
  size pkgs <> 1 ->
  main IsExported Sprint Marshal rt pkgs None "" compareTo refData
  = Crash MultiplePackagesFound.
Proof.
  intros Hsize. unfold main, selectPackage. cbn [String.eqb].
  by apply Nat.eqb_neq in Hsize as ->.
Qed.

(** With [-p] and a name the directory has no package of, [main]
    dereferences the nil package. *)
Theorem missing_package_panics pkgs pkgName compareTo refData :
  pkgName <> "" -> pkgs !! pkgName = None ->
  main IsExported Sprint Marshal rt pkgs None pkgName compareTo refData
  = Crash (RuntimePanic NilDereference).
Proof.
  intros Hname Hpkg. unfold main, selectPackage.
  apply String.eqb_neq in Hname as ->. by rewrite Hpkg.
Qed.

Lemma range_singleton {V} (k : string) (v : V) :
  range rt (<[k := v]> (∅ : gmap string V)) = [(k, v)].
Proof.
  apply Permutation_singleton_r. rewrite (range_perm rt).
  by rewrite insert_empty, map_to_list_singleton.
Qed.

(** When the directory holds one package, leaving [-p] out is the same
    as naming that package. *)
Theorem only_package_is_selected name Files compareTo refData :
  main IsExported Sprint Marshal rt (<[name := Files]> empty) None "" compareTo refData
  = main IsExported Sprint Marshal rt (<[name := Files]> empty) None name compareTo refData.
Proof.
  unfold main. f_equal.
  destruct (String.eqb_spec name "") as [->|Hne]; [done|].
  unfold selectPackage. cbn [String.eqb].
  rewrite insert_empty, map_size_singleton. cbn [Nat.eqb].
  rewrite <- insert_empty, range_singleton. cbn [fold_left fst].
  by apply String.eqb_neq in Hne as ->.
Qed.

(** A run against the snapshot of the same, well-formed, exports ends
    with ["symbols are compatible"] and the exit code 0. *)
Theorem unchanged_exports_are_compatible pkgs pkgName compareTo Files tree :
  selectPackage rt pkgs pkgName = inr Files ->
  mainExports IsExported Sprint rt Files = Ok tree ->
  wellFormedTree tree = true ->
  compareTo <> "" ->
  main IsExported Sprint Marshal rt pkgs None pkgName compareTo (Some tree)
  = Exit 0 [] ["symbols are compatible"].
Proof.
  intros Hsel Hrun Hwf Hcmp. unfold main. rewrite Hsel, Hrun.
  apply String.eqb_neq in Hcmp as ->. cbn [negb].
  by rewrite compareSymbolList_same.
Qed.

(** A run in which one symbol of the snapshot is no longer exported,
    everything else being the same: the diagnostic
    ["missing symbol: <symbol>"] and the exit code 2. *)
Theorem removed_export_exits_2 pkgs pkgName compareTo Files tree pre x post :
  selectPackage rt pkgs pkgName = inr Files ->
  mainExports IsExported Sprint rt Files = Ok tree ->
  wellFormedTree (pre ++ x :: post) = true ->
  Permutation tree (pre ++ post) ->
  compareTo <> "" ->
  main IsExported Sprint Marshal rt pkgs None pkgName compareTo (Some (pre ++ x :: post))
  = Exit 2 [] ["missing symbol: " +:+ String x; "symbols are not compatible"].
Proof.
  intros Hsel Hrun Hwf Hperm Hcmp. unfold main. rewrite Hsel, Hrun.
  apply String.eqb_neq in Hcmp as ->. cbn [negb].
  by rewrite (compareSymbolList_removed rt pre x post tree true Hwf Hperm).
Qed.

(** The exit code 1 is that of a parse error and of nothing else: every
    other failure before the comparison is a panic. *)
Theorem exit_code_1_is_a_parse_error pkgs err pkgName compareTo refData stdout stderr :
  main IsExported Sprint Marshal rt pkgs err pkgName compareTo refData
  = Exit 1 stdout stderr
  <-> exists message, err = Some message /\ stdout = [] /\ stderr = [message].
Proof.
  unfold main. destruct err as [message|].
  - split.
    + intros [= <- <-]. by exists message.
    + by intros (? & [= <-] & -> & ->).
  - split; [|by intros (? & ? & _)].
    destruct (selectPackage rt pkgs pkgName); [done|].
    destruct (mainExports IsExported Sprint rt _); [|done].
    destruct (negb _); [|done]. destruct refData; [|done].
    destruct (compareSymbolList rt _ _ true); [|done]. by destruct (0 <? _)%nat.
Qed.
End MainProperties.

Lemma no_single_package_panics_witness :
  size (∅ : gmap string (gmap string ast.File)) <> 1
  /\ main IsExportedASCII SprintName MarshalIdents rangeAsc empty None "" "ref.json" None
     = Crash MultiplePackagesFound.
Proof.
  assert (Hsize : size (∅ : gmap string (gmap string ast.File)) <> 1) by discriminate.
  split; [exact Hsize|].
  exact (no_single_package_panics IsExportedASCII SprintName MarshalIdents rangeAsc
           empty "ref.json" None Hsize).
Defined.

Lemma missing_package_panics_witness :
  "cmd" <> ""
  /\ twoPackages !! "cmd" = None
  /\ main IsExportedASCII SprintName MarshalIdents rangeAsc twoPackages None "cmd" "" None
     = Crash (RuntimePanic NilDereference).
Proof.
  assert (Hname : "cmd" <> "") by discriminate.
  split; [exact Hname|]. split; [reflexivity|].
  exact (missing_package_panics IsExportedASCII SprintName MarshalIdents rangeAsc
           twoPackages "cmd" "" None Hname eq_refl).
Defined.

Lemma unchanged_exports_are_compatible_witness :
  selectPackage rangeAsc onePackage "" = inr apiPackage
  /\ mainExports IsExportedASCII SprintName rangeAsc apiPackage = Ok apiTree
  /\ wellFormedTree apiTree = true
  /\ "ref.json" <> ""
  /\ main IsExportedASCII SprintName MarshalIdents rangeAsc onePackage None ""
       "ref.json" (Some apiTree)
     = Exit 0 [] ["symbols are compatible"].
Proof.
  assert (Hsel : selectPackage rangeAsc onePackage "" = inr apiPackage)
    by (vm_compute; reflexivity).
  assert (Hrun : mainExports IsExportedASCII SprintName rangeAsc apiPackage = Ok apiTree)
    by (vm_compute; reflexivity).
  assert (Hcmp : "ref.json" <> "") by discriminate.
  split; [exact Hsel|]. split; [exact Hrun|]. split; [reflexivity|]. split; [exact Hcmp|].
  exact (unchanged_exports_are_compatible IsExportedASCII SprintName MarshalIdents rangeAsc
           onePackage "" "ref.json" apiPackage apiTree Hsel Hrun eq_refl Hcmp).
Defined.

Lemma removed_export_exits_2_witness :
  selectPackage rangeAsc onePackage "" = inr apiPackage
  /\ mainExports IsExportedASCII SprintName rangeAsc apiPackage = Ok apiTree
  /\ wellFormedTree (apiTree ++ varSymbol "Old" :: []) = true
  /\ Permutation apiTree (apiTree ++ [])
  /\ "ref.json" <> ""
  /\ main IsExportedASCII SprintName MarshalIdents rangeAsc onePackage None ""
       "ref.json" (Some (apiTree ++ varSymbol "Old" :: []))
     = Exit 2 [] ["missing symbol: .Old"; "symbols are not compatible"].
Proof.
  assert (Hsel : selectPackage rangeAsc onePackage "" = inr apiPackage)
    by (vm_compute; reflexivity).
  assert (Hrun : mainExports IsExportedASCII SprintName rangeAsc apiPackage = Ok apiTree)
    by (vm_compute; reflexivity).
  assert (Hperm : Permutation apiTree (apiTree ++ [])) by (rewrite app_nil_r; reflexivity).
  assert (Hcmp : "ref.json" <> "") by discriminate.
  split; [exact Hsel|]. split; [exact Hrun|]. split; [reflexivity|]. split; [exact Hperm|].
  split; [exact Hcmp|].
  exact (removed_export_exits_2 IsExportedASCII SprintName MarshalIdents rangeAsc
           onePackage "" "ref.json" apiPackage apiTree apiTree (varSymbol "Old") []
           Hsel Hrun eq_refl Hperm Hcmp).
Defined.

(** ** The only panic of the comparator, and the order of the target *)

Section PanicKind.
Variable rt : MapRange.

Lemma targetLoop_panic_kind cmp cmpLabel target agg diffs p :
  Forall (fun s => forall a c q, cmp a s c = Panic q -> q = NilDereference) target ->
  targetLoop cmp cmpLabel target agg diffs = Panic p -> p = NilDereference.
Proof.
  intros Hcmp. revert agg diffs.
  induction Hcmp as [|x rest Hx _ IH]; intros agg diffs; simpl; [done|].
  destruct (agg !! Ident x) as [[orig|]|]; [|by intros [= <-]|apply IH].
  destruct (cmp orig x cmpLabel) as [ds|q] eqn:Ex; simpl; [apply IH|].
  intros [= <-]. by apply (Hx orig cmpLabel).
Qed.

Lemma compareSymbolListWith_panic_kind cmp source target cmpLabel p :
  Forall (fun s => forall a c q, cmp a s c = Panic q -> q = NilDereference) target ->
  compareSymbolListWith rt cmp source target cmpLabel = Panic p -> p = NilDereference.
Proof.
  intros Hcmp. rewrite compareSymbolListWith_spec.
  destruct (targetLoop cmp cmpLabel target (buildAgg source) []) as [r|q] eqn:El; [done|].
  intros [= <-]. by apply (targetLoop_panic_kind _ _ _ _ _ _ Hcmp El).
Qed.

Lemma compareSymbol_panic_kind b :
  forall a cmpLabel p, compareSymbol rt a b cmpLabel = Panic p -> p = NilDereference.
Proof.
  induction b as [b IHm IHf] using Symbol_nested_ind. intros a cmpLabel p.
  rewrite compareSymbol_unfold. cbn zeta.
  destruct (compareSymbolList rt (Members a) (Members b) true) as [ms|q] eqn:Em.
  - cbn [mbind result_bind]. destruct (String.eqb (SymbolType a) "func"); [|done].
    destruct (FuncSpecPtr a) as [fa|]; [|by intros [= <-]].
    destruct (FuncSpecPtr b) as [fb|] eqn:Efb; [|by intros [= <-]].
    destruct (IHf fb eq_refl) as [IHp IHr].
    unfold compareFuncSpec, compareFuncSpecWith.
    destruct (compareSymbolListWith rt (compareSymbol rt) (Params fa) (Params fb) false)
      as [ps|q] eqn:Ep.
    + cbn [mbind result_bind].
      destruct (compareSymbolListWith rt (compareSymbol rt) (Returns fa) (Returns fb) false)
        as [rs|q] eqn:Er; [done|].
      intros [= <-]. by apply (compareSymbolListWith_panic_kind _ _ _ _ _ IHr Er).
    + intros [= <-]. by apply (compareSymbolListWith_panic_kind _ _ _ _ _ IHp Ep).
  - intros [= <-]. by apply (compareSymbolListWith_panic_kind _ _ _ _ _ IHm Em).
Qed.

Lemma compareSymbolList_panic_kind source target cmpLabel p :
  compareSymbolList rt source target cmpLabel = Panic p -> p = NilDereference.
Proof.
  apply compareSymbolListWith_panic_kind, Forall_forall.
  intros s _. apply compareSymbol_panic_kind.
Qed.
End PanicKind.

(** When the comparison panics it dereferences nil: a consumed entry of
    the lookup, or the funcSpec that a symbol matched with a function lacks. *)
Theorem comparator_panics_by_nil_only rt source target cmpLabel p :
  compareSymbolList rt source target cmpLabel = Panic p -> p = NilDereference.
Proof. apply compareSymbolList_panic_kind. Qed.

Lemma comparator_panics_by_nil_only_witness :
  compareSymbolList rangeAsc funcFoo varFoo false = Panic NilDereference
  /\ NilDereference = NilDereference.
Proof.
  split; [reflexivity|].
  exact (comparator_panics_by_nil_only rangeAsc funcFoo varFoo false NilDereference eq_refl).
Defined.

Section TargetOrder.
Variable rt : MapRange.
Variable cmp : Symbol -> Symbol -> bool -> result (list string).
Hypothesis cmp_panic : forall a s c q, cmp a s c = Panic q -> q = NilDereference.

Lemma targetLoop_cons_step cmpLabel x rest agg diffs :
  targetLoop cmp cmpLabel (x :: rest) agg diffs =
    ds ← targetStep cmp cmpLabel agg x;
    targetLoop cmp cmpLabel rest (consumeFound [x] agg) (diffs ++ ds).
Proof.
  unfold targetStep, consumeFound. simpl.
  by destruct (agg !! Ident x) as [[orig|]|].
Qed.

Lemma consumeFound_lookup target agg k :
  consumeFound target agg !! k =
    if decide (k ∈ Ident <$> target)
    then match agg !! k with Some _ => Some None | None => None end
    else agg !! k.
Proof.
  revert agg. induction target as [|x rest IH]; intros agg.
  - destruct (decide (k ∈ Ident <$> [])) as [H|H]; [|done]. by apply elem_of_nil in H.
  - unfold consumeFound in *. rewrite fmap_cons. cbn [fold_left]. rewrite IH.
    destruct (decide (k = Ident x)) as [->|Hne].
    + rewrite (decide_True (P := Ident x ∈ Ident x :: _)) by left.
      destruct (agg !! Ident x) eqn:Ex.
      * rewrite lookup_insert_eq. by case_decide.
      * rewrite Ex. by case_decide.
    + assert (E : (match agg !! Ident x with
                   | Some _ => <[Ident x := None]> agg
                   | None => agg
                   end) !! k = agg !! k).
      { destruct (agg !! Ident x); [by rewrite lookup_insert_ne|done]. }
      rewrite E. destruct (decide (k ∈ Ident <$> rest)) as [Hin|Hnin].
      * rewrite decide_True; [done|]. by right.
      * rewrite decide_False; [done|].
        intros [?|?]%elem_of_cons; done.
Qed.

Lemma targetStep_other cmpLabel x agg y :
  Ident y <> Ident x ->
  targetStep cmp cmpLabel (consumeFound [x] agg) y = targetStep cmp cmpLabel agg y.
Proof.
  intros Hne. unfold targetStep. rewrite consumeFound_lookup, decide_False; [done|].
  rewrite fmap_cons. intros [?|H]%elem_of_cons; [done|]. by apply elem_of_nil in H.
Qed.

(** With pairwise different Idents in the target, every iteration meets
    the lookup entry that the source built. *)
Lemma targetLoop_distinct cmpLabel target agg diffs :
  NoDup (Ident <$> target) ->
  targetLoop cmp cmpLabel target agg diffs =
    if forallb (fun x => isOk (targetStep cmp cmpLabel agg x)) target
    then Ok (consumeFound target agg,
             diffs ++ (target ≫= outputs (targetStep cmp cmpLabel agg)))
    else Panic NilDereference.
Proof.
  revert agg diffs. induction target as [|x rest IH]; intros agg diffs Hnd.
  - simpl. by rewrite app_nil_r.
  - rewrite fmap_cons in Hnd. apply NoDup_cons in Hnd as [Hx Hnd].
    rewrite targetLoop_cons_step. cbn [forallb].
    destruct (targetStep cmp cmpLabel agg x) as [ds|q] eqn:Ex; cbn [mbind result_bind isOk andb].
    + rewrite IH by done.
      assert (Hrest : Forall (fun y => targetStep cmp cmpLabel (consumeFound [x] agg) y
                                       = targetStep cmp cmpLabel agg y) rest).
      { apply Forall_forall. intros y Hy. apply targetStep_other.
        intros E. apply Hx. rewrite <- E. by apply list_elem_of_fmap_2. }
      rewrite (forallb_ext_Forall _ (fun x => isOk (targetStep cmp cmpLabel agg x)) rest).
      2:{ eapply Forall_impl; [exact Hrest|]. by intros y ->. }
      destruct (forallb _ rest); [|done]. f_equal. f_equal.
      rewrite bind_cons.
      assert (E : outputs (targetStep cmp cmpLabel agg) x = ds)
        by (unfold outputs; by rewrite Ex).
      rewrite E, <- app_assoc. f_equal. f_equal.
      clear -Hrest. induction Hrest as [|y rest Hy _ IHr]; [done|].
      rewrite !bind_cons, IHr. unfold outputs. by rewrite Hy.
    + unfold targetStep in Ex. destruct (agg !! Ident x) as [[orig|]|]; [|by injection Ex as <-|done].
      by rewrite (cmp_panic _ _ _ _ Ex).
Qed.

Lemma compareSymbolListWith_target_order source target target' cmpLabel :
  NoDup (Ident <$> target) -> Permutation target target' ->
  sameUpToOrder (compareSymbolListWith rt cmp source target cmpLabel)
                (compareSymbolListWith rt cmp source target' cmpLabel).
Proof.
  intros Hnd Hperm. rewrite !compareSymbolListWith_spec.
  rewrite !targetLoop_distinct; [|by rewrite <- Hperm|done].
  rewrite <- (forallb_Permutation _ _ _ Hperm).
  destruct (forallb _ target); [|done]. cbn [mbind result_bind fst snd app sameUpToOrder].
  replace (consumeFound target' (buildAgg source))
    with (consumeFound target (buildAgg source)).
  - apply Permutation_app; [by rewrite Hperm|done].
  - apply map_eq. intros k. rewrite !consumeFound_lookup.
    destruct (decide (k ∈ Ident <$> target)) as [Hin|Hnin].
    + rewrite decide_True; [done|]. by rewrite <- Hperm.
    + rewrite decide_False; [done|]. by rewrite <- Hperm.
Qed.
End TargetOrder.

(** The order in which the target lists its symbols only permutes the
    diagnostics, when their Idents are pairwise different. *)
Theorem target_order_permutes_diagnostics rt source target target' cmpLabel :
  NoDup (Ident <$> target) -> Permutation target target' ->
  sameUpToOrder (compareSymbolList rt source target cmpLabel)
                (compareSymbolList rt source target' cmpLabel).
Proof.
  apply compareSymbolListWith_target_order.
  intros a s c q. apply compareSymbol_panic_kind.
Qed.

Lemma target_order_permutes_diagnostics_witness :
  NoDup (Ident <$> smallTree)
  /\ Permutation smallTree (reverse smallTree)
  /\ sameUpToOrder (compareSymbolList rangeAsc twoVars smallTree true)
                   (compareSymbolList rangeAsc twoVars (reverse smallTree) true).
Proof.
  assert (Hnd : NoDup (Ident <$> smallTree)).
  { apply (bool_decide_unpack _). vm_compute. exact I. }
  assert (Hperm : Permutation smallTree (reverse smallTree)).
  { symmetry. apply reverse_Permutation. }
  split; [exact Hnd|]. split; [exact Hperm|].
  exact (target_order_permutes_diagnostics rangeAsc twoVars smallTree (reverse smallTree) true
           Hnd Hperm).
Defined.

(** ** The comparison of labels *)

Lemma Ident_noDot_inj r1 r2 l1 l2 :
  noDot r1 = true -> noDot r2 = true ->
  r1 +:+ "." +:+ l1 = r2 +:+ "." +:+ l2 -> l1 = l2.
Proof.
  revert r2. induction r1 as [|c r1 IH]; intros [|c' r2] H1 H2 E;
    cbn [String.append noDot] in *.
  - by injection E.
  - injection E as <- _. done.
  - injection E as -> _. done.
  - injection E as _ E. apply andb_prop in H1 as [_ H1]. apply andb_prop in H2 as [_ H2].
    by apply (IH r2).
Qed.

Lemma compareSymbol_same_label rt a b c1 c2 :
  Label a = Label b -> compareSymbol rt a b c1 = compareSymbol rt a b c2.
Proof.
  intros E. rewrite !compareSymbol_unfold. cbn zeta.
  by rewrite E, String.eqb_refl, !andb_false_r.
Qed.

Section Labels.
Variable rt : MapRange.

Lemma targetLoop_label_idle target agg diffs :
  (forall s, s ∈ target -> noDot (ReceiverType s) = true) ->
  (forall k s, agg !! k = Some (Some s) -> Ident s = k /\ noDot (ReceiverType s) = true) ->
  targetLoop (compareSymbol rt) true target agg diffs
  = targetLoop (compareSymbol rt) false target agg diffs.
Proof.
  revert agg diffs. induction target as [|x rest IH]; intros agg diffs Htarget Hagg; [done|].
  simpl. destruct (agg !! Ident x) as [[orig|]|] eqn:Ex; [|done|].
  - destruct (Hagg _ _ Ex) as [Hid Horig].
    rewrite (compareSymbol_same_label rt orig x true false).
    2:{ apply (Ident_noDot_inj (ReceiverType orig) (ReceiverType x)); [done| |done].
        apply Htarget. by left. }
    destruct (compareSymbol rt orig x false); [|done]. simpl. apply IH.
    + intros s Hs. apply Htarget. by right.
    + intros k s. rewrite lookup_insert. case_decide; [done|]. apply Hagg.
  - apply IH; [|done]. intros s Hs. apply Htarget. by right.
Qed.
End Labels.

(** Symbols are matched by Ident, and when no receiver type has a dot in
    it, two symbols of one Ident have one label: the comparison of labels
    never finds a difference, and [cmpLabel] does not change the outcome. *)
Theorem label_comparison_is_idle rt source target :
  (forall s, s ∈ source -> noDot (ReceiverType s) = true) ->
  (forall s, s ∈ target -> noDot (ReceiverType s) = true) ->
  compareSymbolList rt source target true = compareSymbolList rt source target false.
Proof.
  intros Hsource Htarget. unfold compareSymbolList, compareSymbolListWith.
  rewrite (targetLoop_label_idle rt target (buildAgg source) []); [done|done|].
  intros k s (s' & [= <-] & Hs & <-)%buildAgg_lookup_is_Some. split; [done|].
  by apply Hsource.
Qed.

Lemma label_comparison_is_idle_witness :
  (forall s, s ∈ apiTree -> noDot (ReceiverType s) = true)
  /\ (forall s, s ∈ apiTreeWithoutDefault -> noDot (ReceiverType s) = true)
  /\ compareSymbolList rangeAsc apiTree apiTreeWithoutDefault true
     = compareSymbolList rangeAsc apiTree apiTreeWithoutDefault false.
Proof.
  assert (H1 : forall s, s ∈ apiTree -> noDot (ReceiverType s) = true).
  { intros s Hs. apply (forallb_elem_of (fun s => noDot (ReceiverType s)) apiTree); [|done].
    reflexivity. }
  assert (H2 : forall s, s ∈ apiTreeWithoutDefault -> noDot (ReceiverType s) = true).
  { intros s Hs.
    apply (forallb_elem_of (fun s => noDot (ReceiverType s)) apiTreeWithoutDefault); [|done].
    reflexivity. }
  split; [exact H1|]. split; [exact H2|].
  exact (label_comparison_is_idle rangeAsc apiTree apiTreeWithoutDefault H1 H2).
Defined.
